(** * LimitTransfer: the request-admission gate of
      crates/icp-cli/tests/assets/limit_transfer.py

    The addon object is embedded as a record, its three methods as functions
    on that record, and the asyncio event loop that drives them as a
    labelled transition function on a world made of the addon, the heap of
    [asyncio.Event] objects and the table of request coroutines.

    The loop runs one callback at a time. [request] is a coroutine with a
    single suspension point, [await event.wait()] at line 41, so it is cut
    there in two: [request] up to the suspension and [request_resumed] after
    it. [Event.set()] marks the event and schedules the coroutine waiting on
    it; the coroutine runs in a later callback, and other callbacks that are
    ready may run before it. *)

From Stdlib Require Import ZArith Lia Ascii.
From stdpp Require Import gmap strings pretty list fin_maps.

Local Open Scope Z_scope.

(** ** Python values used by the addon *)

(** An [asyncio.Event] is an object with identity; it is named by its
    address in the event heap. A flow is named by the identity of its
    [http.HTTPFlow]. *)
Abbreviation Event := nat (only parsing).
Abbreviation Flow := nat (only parsing).

(** The exceptions the modelled statements can raise. *)
Inductive PyError :=
  | ValueError   (* int() on text that is no integer *)
  | IndexError.  (* list.pop(0) on an empty list *)

Inductive Exc (A : Type) :=
  | Returned (a : A)
  | Raised (e : PyError).
Arguments Returned {A} a.
Arguments Raised {A} e.

(** [list.pop(0)]: removes and returns the head, raises on the empty list. *)
Definition pop0 {A : Type} (l : list A) : Exc (A * list A) :=
  match l with
  | [] => Raised IndexError
  | x :: rest => Returned (x, rest)
  end.

(** Truth value of a list in a condition ([if self.waiters]). *)
Definition truthy {A : Type} (l : list A) : bool :=
  match l with [] => false | _ :: _ => true end.

(** [int(text)] in base 10 reads an ASCII text as follows: blanks around it
    are dropped, one sign may lead, and the digits may be grouped by single
    underscores. Two things it owes to the interpreter, not to the text:
    the limit on the number of digits, and what it makes of a text with
    characters beyond ASCII (the blanks and decimal digits of the
    interpreter's Unicode tables). *)
Record Interpreter := mkInterpreter {
  int_max_str_digits : nat;          (* sys.get_int_max_str_digits(): 4300
                                        unless configured, 0 for no limit *)
  int_beyond_ascii : string → Exc Z  (* int() on a text that is not ASCII *)
}.

Definition is_blank (c : ascii) : bool :=
  let n := nat_of_ascii c in
  ((9 <=? n) && (n <=? 13) || (n =? 32))%nat.

Definition digit_value (c : ascii) : option Z :=
  let n := nat_of_ascii c in
  if ((48 <=? n) && (n <=? 57))%nat then Some (Z.of_nat n - 48) else None.

Fixpoint lstrip (s : string) : string :=
  match s with
  | String c s' => if is_blank c then lstrip s' else s
  | EmptyString => s
  end.

Fixpoint rstrip (s : string) : string :=
  match s with
  | String c s' =>
      match rstrip s' with
      | EmptyString => if is_blank c then EmptyString else String c EmptyString
      | kept => String c kept
      end
  | EmptyString => s
  end.

Definition strip (s : string) : string := rstrip (lstrip s).

(** [seen] tells whether the character just read was a digit: an
    underscore is only legal between two digits. *)
Fixpoint int_digits (s : string) (acc : Z) (seen : bool) : Exc Z :=
  match s with
  | EmptyString => if seen then Returned acc else Raised ValueError
  | String c s' =>
      if Ascii.eqb c "_" then
        if seen then int_digits s' acc false else Raised ValueError
      else
        match digit_value c with
        | Some d => int_digits s' (10 * acc + d) true
        | None => Raised ValueError
        end
  end.

Fixpoint all_ascii (s : string) : bool :=
  match s with
  | String c s' => (nat_of_ascii c <? 128)%nat && all_ascii s'
  | EmptyString => true
  end.

(** The digits of a text; underscores do not count, leading zeros do. *)
Fixpoint count_digits (s : string) : nat :=
  match s with
  | String c s' =>
      match digit_value c with Some _ => 1 | None => 0 end%nat
      + count_digits s'
  | EmptyString => 0%nat
  end.

(** The interpreter refuses a text of more than 640 digits when a limit is
    set and the text has more digits than the limit. *)
Definition over_limit (max_str_digits digits : nat) : bool :=
  ((640 <? digits) && (0 <? max_str_digits)
   && (max_str_digits <? digits))%nat.

Definition int_body (py : Interpreter) (body : string) : Exc Z :=
  match int_digits body 0 false with
  | Returned n =>
      if over_limit (int_max_str_digits py) (count_digits body)
      then Raised ValueError else Returned n
  | Raised e => Raised e
  end.

Definition int_of_text (py : Interpreter) (text : string) : Exc Z :=
  if all_ascii text then
    match strip text with
    | String "-" body =>
        match int_body py body with
        | Returned n => Returned (- n)
        | Raised e => Raised e
        end
    | String "+" body => int_body py body
    | body => int_body py body
    end
  else int_beyond_ascii py text.

(** ** The addon object *)

Record LimitTransfer := mkLimitTransfer {
  requests_allowed   : Z;
  requests_completed : Z;
  in_flight          : bool;
  waiters            : list Event
}.

#[global] Instance LimitTransfer_eq_dec : EqDecision LimitTransfer.
Proof. solve_decision. Defined.

(** The two ways [request] returns. *)
Inductive Verdict :=
  | Kill    (* flow.kill(); return *)
  | Allow.  (* fell through to line 49: the flow goes on to the target *)

(** How a run of the coroutine stops: it returns, or it parks itself in
    [await event.wait()]. *)
Inductive Outcome :=
  | Return (v : Verdict)
  | Await (e : Event).

#[global] Instance Verdict_eq_dec : EqDecision Verdict.
Proof. solve_decision. Defined.
#[global] Instance Outcome_eq_dec : EqDecision Outcome.
Proof. solve_decision. Defined.

(** [__init__], lines 17-20. [environ] is [os.environ]; without the
    variable the default is the integer 2, which [int] returns as it is. *)
Definition __init__ (py : Interpreter) (environ : gmap string string)
  : Exc LimitTransfer :=
  match
    match environ !! "LIMIT_REQUESTS"%string with
    | Some text => int_of_text py text
    | None => Returned 2
    end
  with
  | Returned n => Returned (mkLimitTransfer n 0 false [])
  | Raised e => Raised e
  end.

(** [request], lines 25-41: from the call to the first suspension or return.
    [ev] is the address [asyncio.Event()] would return; it is only used on
    the branch that allocates. A new event is clear, so [event.wait()]
    always suspends there. *)
Definition request (self : LimitTransfer) (ev : Event)
  : LimitTransfer * Outcome :=
  if requests_completed self >=? requests_allowed self then
    (self, Return Kill)
  else if in_flight self then
    if requests_completed self + Z.of_nat (length (waiters self)) + 1
         >=? requests_allowed self then
      (self, Return Kill)
    else
      (mkLimitTransfer (requests_allowed self) (requests_completed self)
         (in_flight self) (waiters self ++ [ev]),
       Await ev)
  else
    (mkLimitTransfer (requests_allowed self) (requests_completed self)
       true (waiters self),
     Return Allow).

(** [request], lines 43-50: the continuation run when the event loop
    resumes a coroutine whose event has been set. *)
Definition request_resumed (self : LimitTransfer)
  : LimitTransfer * Verdict :=
  if requests_completed self >=? requests_allowed self then
    (self, Kill)
  else
    (mkLimitTransfer (requests_allowed self) (requests_completed self)
       true (waiters self),
     Allow).

(** [response], lines 53-60. Returns the new object and the event on which
    [set()] was called, if any. The flow argument is never read. *)
Definition response (self : LimitTransfer)
  : Exc (LimitTransfer * option Event) :=
  let completed := requests_completed self + 1 in
  if truthy (waiters self) && (completed <? requests_allowed self) then
    match pop0 (waiters self) with
    | Returned (waiter, rest) =>
        Returned (mkLimitTransfer (requests_allowed self) completed false rest,
                  Some waiter)
    | Raised e => Raised e
    end
  else
    Returned (mkLimitTransfer (requests_allowed self) completed false
                (waiters self),
              None).

(** ** The event loop around the addon *)

(** State of a request coroutine. *)
Inductive Task :=
  | Parked (e : Event)  (* suspended at line 41 on [e] *)
  | Allowed             (* returned through line 49 *)
  | Killed.             (* returned after [flow.kill()] *)

#[global] Instance Task_eq_dec : EqDecision Task.
Proof. solve_decision. Defined.

(** What an observer of the proxy sees, in the order it happens. *)
Inductive Obs :=
  | ObsKill (f : Flow)               (* lines 27, 35, 46 *)
  | ObsStall (f : Flow) (e : Event)  (* line 39: [e] appended to waiters *)
  | ObsAllow (f : Flow)              (* line 49 *)
  | ObsDone (f : Flow)               (* line 53: a response was counted *)
  | ObsSet (e : Event).              (* line 60: [e.set()] *)

#[global] Instance Obs_eq_dec : EqDecision Obs.
Proof. solve_decision. Defined.

Record World := mkWorld {
  addon   : LimitTransfer;
  events  : gmap nat bool;   (* heap of Event objects: address to [_value] *)
  tasks   : gmap nat Task;   (* request coroutines, by flow *)
  history : list Obs
}.

(** One callback of the event loop. [asyncio.Event.set] only schedules the
    waiting coroutine; it runs in a later callback, [Resume]. *)
Inductive Label :=
  | Arrive (f : Flow)    (* the request hook is called for a new flow *)
  | Resume (f : Flow)    (* a parked coroutine whose event is set runs on *)
  | Respond (f : Flow).  (* the response hook is called *)

Definition verdict_task (v : Verdict) : Task :=
  match v with Kill => Killed | Allow => Allowed end.

Definition verdict_obs (v : Verdict) (f : Flow) : Obs :=
  match v with Kill => ObsKill f | Allow => ObsAllow f end.

(** [None]: the callback cannot happen in this world (the flow is not new,
    the coroutine is not parked on a set event) or the hook raised. *)
Definition step (w : World) (l : Label) : option World :=
  match l with
  | Arrive f =>
      match tasks w !! f with
      | Some _ => None
      | None =>
          match request (addon w) (fresh (dom (events w))) with
          | (self, Return v) =>
              Some (mkWorld self (events w)
                      (<[f := verdict_task v]> (tasks w))
                      (history w ++ [verdict_obs v f]))
          | (self, Await e) =>
              Some (mkWorld self (<[e := false]> (events w))
                      (<[f := Parked e]> (tasks w))
                      (history w ++ [ObsStall f e]))
          end
      end
  | Resume f =>
      match tasks w !! f with
      | Some (Parked e) =>
          match events w !! e with
          | Some true =>
              let '(self, v) := request_resumed (addon w) in
              Some (mkWorld self (events w)
                      (<[f := verdict_task v]> (tasks w))
                      (history w ++ [verdict_obs v f]))
          | _ => None
          end
      | _ => None
      end
  | Respond f =>
      match response (addon w) with
      | Returned (self, None) =>
          Some (mkWorld self (events w) (tasks w) (history w ++ [ObsDone f]))
      | Returned (self, Some e) =>
          Some (mkWorld self (<[e := true]> (events w)) (tasks w)
                  (history w ++ [ObsDone f; ObsSet e]))
      | Raised _ => None
      end
  end.

Fixpoint run (w : World) (tr : list Label) : option World :=
  match tr with
  | [] => Some w
  | l :: tr' =>
      match step w l with
      | Some w' => run w' tr'
      | None => None
      end
  end.

(** The object [__init__] leaves behind, for a limit [n]. *)
Definition new_gate (n : Z) : LimitTransfer := mkLimitTransfer n 0 false [].

(** The proxy right after loading the addon. *)
Definition boot (n : Z) : World := mkWorld (new_gate n) ∅ ∅ [].

(** *** Readings of the history *)

Definition allowed_flows (h : list Obs) : list Flow :=
  omap (λ o, match o with ObsAllow f => Some f | _ => None end) h.

Definition done_flows (h : list Obs) : list Flow :=
  omap (λ o, match o with ObsDone f => Some f | _ => None end) h.

Definition stalled_events (h : list Obs) : list Event :=
  omap (λ o, match o with ObsStall _ e => Some e | _ => None end) h.

Definition set_events (h : list Obs) : list Event :=
  omap (λ o, match o with ObsSet e => Some e | _ => None end) h.

(** Flows that were admitted and whose response has not been counted. *)
Definition between (w : World) : list Flow :=
  filter (λ f, f ∉ done_flows (history w)) (allowed_flows (history w)).

(** The collaborator's side of the contract: the response hook is called
    for admitted flows only, once each. *)
Definition polite_step (w : World) (l : Label) : bool :=
  match l with
  | Respond f =>
      bool_decide (tasks w !! f = Some Allowed)
      && bool_decide (f ∉ done_flows (history w))
  | _ => true
  end.

Fixpoint polite (w : World) (tr : list Label) : bool :=
  match tr with
  | [] => true
  | l :: tr' =>
      polite_step w l &&
      match step w l with
      | Some w' => polite w' tr'
      | None => false
      end
  end.

(** *** Paths through [request] *)

(** The slot a request would take if it queued (line 33). *)
Definition projected (self : LimitTransfer) : Z :=
  requests_completed self + Z.of_nat (length (waiters self)) + 1.

(** The four paths through lines 25-41. *)
Inductive request_path (self : LimitTransfer) (ev : Event)
  : LimitTransfer * Outcome → Prop :=
  | path_limit_reached :
      requests_allowed self ≤ requests_completed self →
      request_path self ev (self, Return Kill)
  | path_would_exceed :
      requests_completed self < requests_allowed self →
      in_flight self = true →
      requests_allowed self ≤ projected self →
      request_path self ev (self, Return Kill)
  | path_stall :
      requests_completed self < requests_allowed self →
      in_flight self = true →
      projected self < requests_allowed self →
      request_path self ev
        (mkLimitTransfer (requests_allowed self) (requests_completed self)
           true (waiters self ++ [ev]),
         Await ev)
  | path_idle :
      requests_completed self < requests_allowed self →
      in_flight self = false →
      request_path self ev
        (mkLimitTransfer (requests_allowed self) (requests_completed self)
           true (waiters self),
         Return Allow).

(** *** Invariant of the event loop *)

(** The facts that hold of the addon, the event heap and the history
    after any callbacks whatever, polite or not. *)
Record sound (w : World) : Prop := mkSound {
  sound_completed : 0 ≤ requests_completed (addon w);
  sound_queue :
    waiters (addon w) = []
    ∨ requests_completed (addon w) + Z.of_nat (length (waiters (addon w)))
      < requests_allowed (addon w);
  sound_clear :
    Forall (λ e, events w !! e = Some false) (waiters (addon w));
  sound_fifo :
    stalled_events (history w)
    = set_events (history w) ++ waiters (addon w);
  sound_alloc :
    Forall (λ e, is_Some (events w !! e)) (stalled_events (history w));
  sound_nodup : NoDup (stalled_events (history w))
}.

(** *** Prompt resumption *)

(** The flow whose coroutine parked on [e], read off the history. *)
Definition owner (h : list Obs) (e : Event) : option Flow :=
  head (omap (λ o, match o with
                   | ObsStall f e' => if decide (e' = e) then Some f else None
                   | _ => None
                   end) h).

(** The two hooks the proxy calls. *)
Inductive Call :=
  | Request (f : Flow)
  | Response (f : Flow).

(** The callbacks a hook call amounts to when a coroutine woken by
    [set()] runs on before any other callback. *)
Definition handoff (w : World) (c : Call) : list Label :=
  match c with
  | Request f => [Arrive f]
  | Response f =>
      Respond f ::
      match response (addon w) with
      | Returned (_, Some e) =>
          match owner (history w) e with
          | Some f' => [Resume f']
          | None => []
          end
      | _ => []
      end
  end.

Definition polite_call (w : World) (c : Call) : bool :=
  match c with
  | Request _ => true
  | Response f => polite_step w (Respond f)
  end.

(** Hook calls made by a polite collaborator, each with its prompt
    resumption. *)
Fixpoint run_prompt (w : World) (cs : list Call) : option World :=
  match cs with
  | [] => Some w
  | c :: cs' =>
      if polite_call w c then
        match run w (handoff w c) with
        | Some w' => run_prompt w' cs'
        | None => None
        end
      else None
  end.

(** The callbacks behind [run_prompt]. *)
Fixpoint prompt_trace (w : World) (cs : list Call) : list Label :=
  match cs with
  | [] => []
  | c :: cs' =>
      handoff w c ++
      match run w (handoff w c) with
      | Some w' => prompt_trace w' cs'
      | None => []
      end
  end.

(** What holds between hook calls under prompt resumption. *)
Record settled (n : Z) (w : World) : Prop := mkSettled {
  settled_sound : sound w;
  settled_limit : requests_allowed (addon w) = n;
  settled_idle : in_flight (addon w) = false → between w = [];
  settled_busy : in_flight (addon w) = true → ∃ f, between w = [f];
  settled_count :
    Z.of_nat (length (allowed_flows (history w)))
    = requests_completed (addon w) + Z.of_nat (length (between w));
  settled_room :
    in_flight (addon w) = true → requests_completed (addon w) < n;
  settled_cap : requests_completed (addon w) ≤ Z.max 0 n;
  settled_tasks :
    ∀ f, tasks w !! f = Some Allowed ↔ f ∈ allowed_flows (history w);
  settled_done :
    ∀ f, f ∈ done_flows (history w) → f ∈ allowed_flows (history w);
  settled_owner :
    ∀ e, e ∈ waiters (addon w) →
         ∃ f, owner (history w) e = Some f ∧ tasks w !! f = Some (Parked e)
}.

(** *** After the limit *)

(** What stays put once the limit is reached. *)
Record frozen (w w' : World) : Prop := mkFrozen {
  frozen_limit : requests_allowed (addon w') ≤ requests_completed (addon w');
  frozen_clear : Forall (λ e, events w' !! e = Some false) (waiters (addon w'));
  frozen_waiters : waiters (addon w') = waiters (addon w);
  frozen_set : set_events (history w') = set_events (history w);
  frozen_parked :
    ∀ f e, tasks w !! f = Some (Parked e) → e ∈ waiters (addon w) →
           tasks w' !! f = Some (Parked e)
}.

(** *** Decimal texts *)

(** Texts made of decimal digits only. *)
Fixpoint digits_only (s : string) : Prop :=
  match s with
  | EmptyString => True
  | String c s' => is_Some (digit_value c) ∧ digits_only s'
  end.

(** *** An interpreter used as example *)

(** The default limit of 4300 digits. The second field stands for an
    interpreter that knows no blank or digit beyond ASCII; it is only used
    on ASCII texts below, where it is not consulted. *)
Definition default_interpreter : Interpreter :=
  mkInterpreter 4300 (λ _, Raised ValueError).

(** *** Worlds used as examples *)

(** The world after two arrivals at a gate of limit 2: flow 1 is in flight,
    flow 2 is parked on the event at address 0. *)
Definition two_arrived : World :=
  mkWorld (mkLimitTransfer 2 0 true [0%nat])
    {[ 0%nat := false ]}
    {[ 1%nat := Allowed; 2%nat := Parked 0 ]}
    [ObsAllow 1; ObsStall 2 0].

(** The world in which flow 2, queued behind flow 1, has been signalled but
    has not run yet, while flow 3 slipped in and completed: the limit of 2
    is used up when flow 2 wakes. *)
Definition woken_too_late : World :=
  mkWorld (mkLimitTransfer 2 2 false [])
    {[ 0%nat := true ]}
    {[ 1%nat := Allowed; 2%nat := Parked 0; 3%nat := Allowed ]}
    [ObsAllow 1; ObsStall 2 0; ObsDone 1; ObsSet 0; ObsAllow 3; ObsDone 3].

(** A world no run from [boot] reaches, but which the addon's fields allow:
    the limit of 1 is used up while flow 2 is still queued on a clear
    event. *)
Definition stranded : World :=
  mkWorld (mkLimitTransfer 1 1 false [0%nat])
    {[ 0%nat := false ]}
    {[ 1%nat := Allowed; 2%nat := Parked 0 ]}
    [ObsAllow 1; ObsStall 2 0; ObsDone 1].

(** Limit 4: three flows queue behind the first; two completions later the
    first two of them, and only they, have been signalled. *)
Definition queue_of_three : list Label :=
  [Arrive 1; Arrive 2; Arrive 3; Arrive 4; Respond 1; Resume 2; Respond 2].

(** The interleaving that defeats the gate, limit 2: flow 3 arrives after
    the response of flow 1 has set the event of flow 2 and before the
    coroutine of flow 2 runs again. *)
Definition race : list Label :=
  [Arrive 1; Arrive 2; Respond 1; Arrive 3; Resume 2].

Definition raced : World :=
  mkWorld (mkLimitTransfer 2 1 true [])
    {[ 0%nat := true ]}
    {[ 1%nat := Allowed; 2%nat := Allowed; 3%nat := Allowed ]}
    [ObsAllow 1; ObsStall 2 0; ObsDone 1; ObsSet 0; ObsAllow 3; ObsAllow 2].

(** *** More readings, and a client that takes its turn *)

Definition killed_flows (h : list Obs) : list Flow :=
  omap (λ o, match o with ObsKill f => Some f | _ => None end) h.

Definition is_response (l : Label) : bool :=
  match l with Respond _ => true | _ => false end.

(** The calls of the response hook in a run. *)
Definition responses (tr : list Label) : nat :=
  length (filter (λ l, is_response l = true) tr).

(** A collaborator that sends its flows one after the other: the next flow
    arrives once the one before has been killed or has had its response.
    [None] if a flow is left parked, or a callback cannot happen. *)
Fixpoint one_by_one (w : World) (fs : list Flow) : option World :=
  match fs with
  | [] => Some w
  | f :: fs' =>
      match step w (Arrive f) with
      | Some w1 =>
          match tasks w1 !! f with
          | Some Allowed =>
              match step w1 (Respond f) with
              | Some w2 => one_by_one w2 fs'
              | None => None
              end
          | Some Killed => one_by_one w1 fs'
          | _ => None
          end
      | None => None
      end
  end.

(** What holds of a gate whose limit is reached from the start. *)
Record shut (w : World) : Prop := mkShut {
  shut_limit : requests_allowed (addon w) ≤ requests_completed (addon w);
  shut_waiters : waiters (addon w) = [];
  shut_idle : in_flight (addon w) = false;
  shut_allowed : allowed_flows (history w) = [];
  shut_stalled : stalled_events (history w) = [];
  shut_tasks : ∀ f t, tasks w !! f = Some t → t = Killed
}.

(** What a polite collaborator can rely on, whatever the interleaving. *)
Record tracked (w : World) : Prop := mkTracked {
  tracked_tasks :
    ∀ f, tasks w !! f = Some Allowed ↔ f ∈ allowed_flows (history w);
  tracked_done :
    ∀ f, f ∈ done_flows (history w) → f ∈ allowed_flows (history w);
  tracked_busy :
    in_flight (addon w) = true →
    ∃ f, last (allowed_flows (history w)) = Some f
         ∧ f ∉ done_flows (history w)
}.

(** Every flow that queued is still queued, or was allowed. *)
Definition queued_or_allowed (w : World) : Prop :=
  ∀ f e, ObsStall f e ∈ history w →
         (tasks w !! f = Some (Parked e) ∧ e ∈ waiters (addon w))
         ∨ tasks w !! f = Some Allowed.

(** ** The test matrix of .github/scripts/test-matrix.py *)

Definition MACOS_TESTS : list string := ["network_tests"%string].

(** [s.endswith(suffix)]: [s] itself or one of its tails is [suffix]. *)
Fixpoint endswith (s suffix : string) : bool :=
  String.eqb s suffix
  || match s with
     | String _ s' => endswith s' suffix
     | EmptyString => false
     end.

(** [s[:-3]]: all but the last three characters, nothing when there are
    three or fewer. *)
Fixpoint all_but_last3 (s : string) : string :=
  match s with
  | String c s' =>
      if (String.length s <=? 3)%nat then EmptyString
      else String c (all_but_last3 s')
  | EmptyString => EmptyString
  end.

(** [test_names], lines 9-12; [all_files] is what [os.listdir(TEST_DIR)]
    returned. *)
Definition test_names (all_files : list string) : list string :=
  let rust_files := filter (λ f, endswith f ".rs" = true) all_files in
  (λ filename, all_but_last3 filename) <$> rust_files.

(** The dict literals of lines 18-21 and 25-28. *)
Definition matrix_entry (test os : string) : gmap string string :=
  {[ "test"%string := test; "os"%string := os ]}.

(** The body of the loop, lines 16-28: what one test appends. *)
Definition include_append (include : list (gmap string string))
    (test : string) : list (gmap string string) :=
  let include := include ++ [matrix_entry test "ubuntu-24.04"] in
  if bool_decide (test ∈ MACOS_TESTS) then
    include ++ [matrix_entry test "macos-15"]
  else include.

(** [include] after the loop of lines 15-28. *)
Definition include_of (all_files : list string) : list (gmap string string) :=
  foldl include_append [] (test_names all_files).

(** [matrix], lines 31-33. *)
Definition matrix (all_files : list string)
  : gmap string (list (gmap string string)) :=
  {[ "include"%string := include_of all_files ]}.

(** The tests of the entries of [include] that run on [os], in order. *)
Definition tests_on (os : string) (include : list (gmap string string))
  : list string :=
  omap (λ entry, if bool_decide (entry !! "os"%string = Some os)
                 then entry !! "test"%string else None) include.

(** What the loop appends for one test. *)
Definition entries_for (test : string) : list (gmap string string) :=
  matrix_entry test "ubuntu-24.04"
  :: if bool_decide (test ∈ MACOS_TESTS)
     then [matrix_entry test "macos-15"] else [].

(** * Properties *)

(** ** The three methods, case by case *)

Section Methods.
Implicit Types (self : LimitTransfer) (ev : Event).

Lemma request_limit_reached self ev :
  requests_allowed self ≤ requests_completed self →
  request self ev = (self, Return Kill).
Proof.
  intros H. unfold request. rewrite Z.geb_leb.
  destruct (Z.leb_spec (requests_allowed self) (requests_completed self));
    [done | lia].
Qed.

Lemma request_would_exceed self ev :
  requests_completed self < requests_allowed self →
  in_flight self = true →
  requests_allowed self ≤ projected self →
  request self ev = (self, Return Kill).
Proof.
  unfold projected, request. intros H1 H2 H3. rewrite !Z.geb_leb, H2.
  destruct (Z.leb_spec (requests_allowed self) (requests_completed self));
    [lia |].
  destruct (Z.leb_spec (requests_allowed self)
              (requests_completed self
               + Z.of_nat (length (waiters self)) + 1)); [done | lia].
Qed.

Lemma request_stalls self ev :
  requests_completed self < requests_allowed self →
  in_flight self = true →
  projected self < requests_allowed self →
  request self ev =
    (mkLimitTransfer (requests_allowed self) (requests_completed self)
       true (waiters self ++ [ev]),
     Await ev).
Proof.
  unfold projected, request. intros H1 H2 H3. rewrite !Z.geb_leb, H2.
  destruct (Z.leb_spec (requests_allowed self) (requests_completed self));
    [lia |].
  destruct (Z.leb_spec (requests_allowed self)
              (requests_completed self
               + Z.of_nat (length (waiters self)) + 1)); [lia | done].
Qed.

Lemma request_idle self ev :
  requests_completed self < requests_allowed self →
  in_flight self = false →
  request self ev =
    (mkLimitTransfer (requests_allowed self) (requests_completed self)
       true (waiters self),
     Return Allow).
Proof.
  unfold request. intros H1 H2. rewrite Z.geb_leb, H2.
  destruct (Z.leb_spec (requests_allowed self) (requests_completed self));
    [lia | done].
Qed.

Lemma request_paths self ev : request_path self ev (request self ev).
Proof.
  destruct (Z.le_gt_cases (requests_allowed self) (requests_completed self)).
  { rewrite request_limit_reached by done. by constructor. }
  destruct (in_flight self) eqn:Hfl.
  - destruct (Z.le_gt_cases (requests_allowed self) (projected self)).
    + rewrite request_would_exceed by (done || lia).
      apply path_would_exceed; done || lia.
    + rewrite request_stalls by (done || lia).
      apply path_stall; done || lia.
  - rewrite request_idle by (done || lia). apply path_idle; done || lia.
Qed.

Lemma resumed_limit_reached self :
  requests_allowed self ≤ requests_completed self →
  request_resumed self = (self, Kill).
Proof.
  intros H. unfold request_resumed. rewrite Z.geb_leb.
  destruct (Z.leb_spec (requests_allowed self) (requests_completed self));
    [done | lia].
Qed.

Lemma resumed_under_limit self :
  requests_completed self < requests_allowed self →
  request_resumed self =
    (mkLimitTransfer (requests_allowed self) (requests_completed self)
       true (waiters self),
     Allow).
Proof.
  intros H. unfold request_resumed. rewrite Z.geb_leb.
  destruct (Z.leb_spec (requests_allowed self) (requests_completed self));
    [lia | done].
Qed.

Lemma response_wakes self e rest :
  waiters self = e :: rest →
  requests_completed self + 1 < requests_allowed self →
  response self =
    Returned (mkLimitTransfer (requests_allowed self)
                (requests_completed self + 1) false rest,
              Some e).
Proof.
  intros Hw Hlt. unfold response. rewrite Hw. simpl.
  destruct (Z.ltb_spec (requests_completed self + 1) (requests_allowed self));
    [done | lia].
Qed.

Lemma response_quiet self :
  waiters self = [] ∨ requests_allowed self ≤ requests_completed self + 1 →
  response self =
    Returned (mkLimitTransfer (requests_allowed self)
                (requests_completed self + 1) false (waiters self),
              None).
Proof.
  intros H. unfold response.
  destruct (waiters self) as [|e rest] eqn:Hw; [done |]. simpl.
  destruct (Z.ltb_spec (requests_completed self + 1) (requests_allowed self));
    [| done].
  destruct H; [done | lia].
Qed.

(** [pop(0)] is guarded by the truth test on the list: no path raises. *)
Lemma response_returns self :
  ∃ g sig, response self = Returned (g, sig).
Proof.
  destruct (waiters self) as [|e rest] eqn:Hw.
  - eexists _, _. apply response_quiet. by left.
  - destruct (Z.lt_ge_cases (requests_completed self + 1)
                (requests_allowed self)).
    + eexists _, _. by eapply response_wakes.
    + eexists _, _. apply response_quiet. by right.
Qed.
End Methods.

(** ** Arrivals that find the gate busy *)

Lemma run_two_arrived : run (boot 2) [Arrive 1; Arrive 2] = Some two_arrived.
Proof. vm_compute. reflexivity. Qed.

(** C4. An arrival that finds [completed < limit] and the gate in flight is
    killed at once, with [waiters] and everything else of the gate as they
    were, when [projected = completed + len(waiters) + 1 >= limit];
    otherwise a new event is appended at the tail of [waiters] and the
    coroutine parks on it. With limit 2, after a first arrival is admitted
    and a second one queues, the third computes [projected = 0 + 1 + 1 = 2]
    and is killed without being queued. *)
Theorem busy_arrival_kills_or_queues :
  (∀ (w : World) (f : Flow),
     tasks w !! f = None →
     requests_completed (addon w) < requests_allowed (addon w) →
     in_flight (addon w) = true →
     (requests_allowed (addon w) ≤ projected (addon w) →
        step w (Arrive f) =
          Some (mkWorld (addon w) (events w) (<[f := Killed]> (tasks w))
                  (history w ++ [ObsKill f])))
     ∧ (projected (addon w) < requests_allowed (addon w) →
        let ev := fresh (dom (events w)) in
        events w !! ev = None
        ∧ step w (Arrive f) =
            Some (mkWorld
                    (mkLimitTransfer (requests_allowed (addon w))
                       (requests_completed (addon w)) true
                       (waiters (addon w) ++ [ev]))
                    (<[ev := false]> (events w))
                    (<[f := Parked ev]> (tasks w))
                    (history w ++ [ObsStall f ev]))))
  ∧ (run (boot 2) [Arrive 1; Arrive 2] = Some two_arrived
     ∧ projected (addon two_arrived) = 0 + 1 + 1
     ∧ step two_arrived (Arrive 3) =
         Some (mkWorld (addon two_arrived) (events two_arrived)
                 (<[3%nat := Killed]> (tasks two_arrived))
                 [ObsAllow 1; ObsStall 2 0; ObsKill 3])
     ∧ waiters (addon two_arrived) = [0%nat]).
Proof.
  split.
  - intros w f Hnew Hlt Hfl. split.
    + intros Hge. unfold step. rewrite Hnew.
      by rewrite request_would_exceed.
    + intros Hproj ev. split.
      * apply not_elem_of_dom, is_fresh.
      * unfold step. rewrite Hnew. by rewrite request_stalls.
  - split; [apply run_two_arrived |]. split; [reflexivity |].
    split; [| reflexivity]. vm_compute. reflexivity.
Qed.

Lemma busy_arrival_witness :
  step two_arrived (Arrive 3) =
    Some (mkWorld (addon two_arrived) (events two_arrived)
            (<[3%nat := Killed]> (tasks two_arrived))
            (history two_arrived ++ [ObsKill 3])).
Proof.
  apply (proj1 busy_arrival_kills_or_queues two_arrived 3%nat).
  - reflexivity.
  - simpl. lia.
  - reflexivity.
  - vm_compute. discriminate.
Defined.

(** ** Waiters that are resumed *)

Lemma run_woken_too_late :
  run (boot 2) [Arrive 1; Arrive 2; Respond 1; Arrive 3; Respond 3]
  = Some woken_too_late.
Proof. vm_compute. reflexivity. Qed.

(** C5. When the event loop resumes a coroutine parked on an event that has
    been set, the coroutine checks the count again: with
    [completed >= limit] the flow is killed and the gate is left as it was;
    otherwise [in_flight] is set and the flow is admitted. *)
Theorem resumed_waiter_rechecks (w : World) (f : Flow) (e : Event) :
  tasks w !! f = Some (Parked e) →
  events w !! e = Some true →
  (requests_allowed (addon w) ≤ requests_completed (addon w) →
     step w (Resume f) =
       Some (mkWorld (addon w) (events w) (<[f := Killed]> (tasks w))
               (history w ++ [ObsKill f])))
  ∧ (requests_completed (addon w) < requests_allowed (addon w) →
     step w (Resume f) =
       Some (mkWorld
               (mkLimitTransfer (requests_allowed (addon w))
                  (requests_completed (addon w)) true (waiters (addon w)))
               (events w) (<[f := Allowed]> (tasks w))
               (history w ++ [ObsAllow f]))).
Proof.
  intros Hpark Hset. unfold step. rewrite Hpark, Hset. split; intros H.
  - by rewrite resumed_limit_reached.
  - by rewrite resumed_under_limit.
Qed.

Lemma resumed_waiter_witness :
  step woken_too_late (Resume 2) =
    Some (mkWorld (addon woken_too_late) (events woken_too_late)
            (<[2%nat := Killed]> (tasks woken_too_late))
            (history woken_too_late ++ [ObsKill 2])).
Proof.
  apply (resumed_waiter_rechecks woken_too_late 2%nat 0%nat).
  - reflexivity.
  - reflexivity.
  - simpl. lia.
Defined.

(** ** Arrivals killed on the spot *)

(** C10. An arrival killed before it could queue, on either path (the limit
    is already reached, or the projected slot is over the limit), leaves
    [requests_allowed], [requests_completed], [in_flight] and [waiters] as
    they were; no event is allocated either. *)
Theorem immediate_kill_leaves_gate (w : World) (f : Flow) :
  tasks w !! f = None →
  requests_allowed (addon w) ≤ requests_completed (addon w)
  ∨ (in_flight (addon w) = true
     ∧ requests_allowed (addon w) ≤ projected (addon w)) →
  ∃ w',
    step w (Arrive f) = Some w'
    ∧ tasks w' !! f = Some Killed
    ∧ requests_allowed (addon w') = requests_allowed (addon w)
    ∧ requests_completed (addon w') = requests_completed (addon w)
    ∧ in_flight (addon w') = in_flight (addon w)
    ∧ waiters (addon w') = waiters (addon w)
    ∧ events w' = events w.
Proof.
  intros Hnew Hpath.
  exists (mkWorld (addon w) (events w) (<[f := Killed]> (tasks w))
            (history w ++ [ObsKill f])).
  split.
  - unfold step. rewrite Hnew.
    destruct (Z.le_gt_cases (requests_allowed (addon w))
                (requests_completed (addon w))) as [Hge | Hlt].
    + by rewrite request_limit_reached.
    + destruct Hpath as [Hge | [Hfl Hproj]]; [lia |].
      by rewrite request_would_exceed.
  - simpl. by rewrite lookup_insert_eq.
Qed.

Lemma immediate_kill_witness :
  ∃ w',
    step two_arrived (Arrive 3) = Some w'
    ∧ tasks w' !! 3%nat = Some Killed
    ∧ requests_allowed (addon w') = requests_allowed (addon two_arrived)
    ∧ requests_completed (addon w') = requests_completed (addon two_arrived)
    ∧ in_flight (addon w') = in_flight (addon two_arrived)
    ∧ waiters (addon w') = waiters (addon two_arrived)
    ∧ events w' = events two_arrived.
Proof.
  apply (immediate_kill_leaves_gate two_arrived 3%nat).
  - reflexivity.
  - right. split; [reflexivity | vm_compute; discriminate].
Defined.

(** Conversely, an arrival is killed on one of those two paths only. *)
Lemma killed_arrival_path (w w' : World) (f : Flow) :
  step w (Arrive f) = Some w' →
  tasks w' !! f = Some Killed →
  addon w' = addon w
  ∧ (requests_allowed (addon w) ≤ requests_completed (addon w)
     ∨ (in_flight (addon w) = true
        ∧ requests_allowed (addon w) ≤ projected (addon w))).
Proof.
  unfold step. destruct (tasks w !! f); [done |].
  destruct (request_paths (addon w) (fresh (dom (events w))));
    intros [= <-]; simpl; rewrite lookup_insert_eq; intros [=]; auto.
Qed.

(** ** What every callback preserves *)

Section Invariant.
Implicit Types (w : World) (l : Label) (tr : list Label).

Lemma history_snoc_plain (h : list Obs) (o : Obs) :
  (∀ f e, o ≠ ObsStall f e) → (∀ e, o ≠ ObsSet e) →
  stalled_events (h ++ [o]) = stalled_events h
  ∧ set_events (h ++ [o]) = set_events h.
Proof.
  intros H1 H2. unfold stalled_events, set_events. rewrite !omap_app.
  destruct o; simpl; rewrite ?app_nil_r; try done.
  - by destruct (H1 f e).
  - by destruct (H2 e).
Qed.

Lemma history_snoc_verdict (h : list Obs) (v : Verdict) (f : Flow) :
  stalled_events (h ++ [verdict_obs v f]) = stalled_events h
  ∧ set_events (h ++ [verdict_obs v f]) = set_events h.
Proof. apply history_snoc_plain; by destruct v. Qed.

Lemma history_snoc_stall (h : list Obs) (f : Flow) (e : Event) :
  stalled_events (h ++ [ObsStall f e]) = stalled_events h ++ [e]
  ∧ set_events (h ++ [ObsStall f e]) = set_events h.
Proof.
  unfold stalled_events, set_events. rewrite !omap_app. simpl.
  by rewrite app_nil_r.
Qed.

Lemma history_snoc_done (h : list Obs) (f : Flow) :
  stalled_events (h ++ [ObsDone f]) = stalled_events h
  ∧ set_events (h ++ [ObsDone f]) = set_events h.
Proof. by apply history_snoc_plain. Qed.

Lemma history_snoc_done_set (h : list Obs) (f : Flow) (e : Event) :
  stalled_events (h ++ [ObsDone f; ObsSet e]) = stalled_events h
  ∧ set_events (h ++ [ObsDone f; ObsSet e]) = set_events h ++ [e].
Proof.
  unfold stalled_events, set_events. rewrite !omap_app. simpl.
  by rewrite app_nil_r.
Qed.

Lemma sound_boot (n : Z) : sound (boot n).
Proof. split; simpl; try done; auto using NoDup_nil_2. Qed.

Lemma sound_waiters_nodup w : sound w → NoDup (waiters (addon w)).
Proof.
  intros Hs. pose proof (sound_nodup w Hs) as Hnd.
  rewrite (sound_fifo w Hs) in Hnd. by apply NoDup_app in Hnd as (_ & _ & ?).
Qed.

Lemma sound_step w l w' : sound w → step w l = Some w' → sound w'.
Proof.
  intros Hs Hstep. destruct Hs as [Hc Hq Hcl Hfifo Hal Hnd].
  destruct l as [f | f | f]; unfold step in Hstep.
  - (* Arrive *)
    destruct (tasks w !! f); [done |].
    set (ev := fresh (dom (events w))) in *.
    assert (Hev : events w !! ev = None)
      by apply not_elem_of_dom, is_fresh.
    destruct (request_paths (addon w) ev) as [Hge | Hlt Hfl Hge | Hlt Hfl Hp | Hlt Hfl];
      injection Hstep as <-.
    + destruct (history_snoc_verdict (history w) Kill f) as [E1 E2].
      split; simpl in *; rewrite ?E1, ?E2; done.
    + destruct (history_snoc_verdict (history w) Kill f) as [E1 E2].
      split; simpl in *; rewrite ?E1, ?E2; done.
    + destruct (history_snoc_stall (history w) f ev) as [E1 E2].
      split; simpl in *; rewrite ?E1, ?E2.
      * done.
      * right. unfold projected in Hp. rewrite length_app. simpl. lia.
      * apply Forall_app. split.
        -- eapply Forall_impl; [exact Hcl |]. intros e He. simpl in He.
           rewrite lookup_insert_ne; [done | congruence].
        -- apply Forall_cons. split; [apply lookup_insert_eq | done].
      * by rewrite Hfifo, <- app_assoc.
      * apply Forall_app. split.
        -- eapply Forall_impl; [exact Hal |]. intros e He. simpl in He.
           rewrite lookup_insert_ne; [done |].
           intros <-. rewrite Hev in He. by destruct He.
        -- apply Forall_cons. split; [| done].
           rewrite lookup_insert_eq. by eexists.
      * apply NoDup_app. split; [done |]. split; [| apply NoDup_singleton].
        intros e He ->%list_elem_of_singleton.
        rewrite Forall_forall in Hal. specialize (Hal _ He).
        rewrite Hev in Hal. by destruct Hal.
    + destruct (history_snoc_verdict (history w) Allow f) as [E1 E2].
      split; simpl in *; rewrite ?E1, ?E2; done.
  - (* Resume *)
    destruct (tasks w !! f) as [[e | |] |]; try done.
    destruct (events w !! e) as [[|] |]; try done.
    destruct (request_resumed (addon w)) as [self v] eqn:Hres.
    injection Hstep as <-.
    destruct (history_snoc_verdict (history w) v f) as [E1 E2].
    assert (Hself : requests_allowed self = requests_allowed (addon w)
                    ∧ requests_completed self = requests_completed (addon w)
                    ∧ waiters self = waiters (addon w)).
    { unfold request_resumed in Hres.
      destruct (_ >=? _); injection Hres as <- <-; done. }
    destruct Hself as (Ha & Hcm & Hw).
    split; simpl in *; rewrite ?E1, ?E2, ?Ha, ?Hcm, ?Hw; done.
  - (* Respond *)
    destruct (waiters (addon w)) as [| e rest] eqn:Hw.
    + rewrite response_quiet in Hstep by (by left).
      injection Hstep as <-.
      destruct (history_snoc_done (history w) f) as [E1 E2].
      split; simpl in *; rewrite ?E1, ?E2, ?Hw; try done.
      * lia.
      * by left.
    + destruct Hq as [Hq | Hq]; [done |]. simpl in Hq.
      rewrite (response_wakes _ e rest) in Hstep by (done || lia).
      injection Hstep as <-.
      destruct (history_snoc_done_set (history w) f e) as [E1 E2].
      assert (Hnd' : NoDup (e :: rest)).
      { rewrite Hfifo in Hnd. by apply NoDup_app in Hnd as (_ & _ & ?). }
      apply NoDup_cons in Hnd' as [Hne _].
      split; simpl in *; rewrite ?E1, ?E2.
      * lia.
      * right. lia.
      * apply Forall_cons in Hcl as [_ Hcl].
        rewrite Forall_forall in Hcl. apply Forall_forall.
        intros e' He'. rewrite lookup_insert_ne; [by apply Hcl |].
        by intros <-.
      * by rewrite Hfifo, <- app_assoc.
      * eapply Forall_impl; [exact Hal |]. intros e' He'. simpl in He'.
        destruct (decide (e = e')) as [<- | Hd].
        -- rewrite lookup_insert_eq. by eexists.
        -- by rewrite lookup_insert_ne.
      * done.
Qed.

Lemma sound_run w tr w' : sound w → run w tr = Some w' → sound w'.
Proof.
  revert w. induction tr as [| l tr IH]; intros w Hs Hrun; simpl in Hrun.
  - by injection Hrun as <-.
  - destruct (step w l) as [w1 |] eqn:Hstep; [| done].
    eapply IH; [| exact Hrun]. by eapply sound_step.
Qed.

Lemma run_app w tr1 tr2 :
  run w (tr1 ++ tr2) = run w tr1 ≫= λ w1, run w1 tr2.
Proof.
  revert w. induction tr1 as [| l tr1 IH]; intros w; simpl; [done |].
  destruct (step w l); simpl; [apply IH | done].
Qed.

(** The limit is fixed at construction. *)
Lemma step_limit w l w' :
  step w l = Some w' → requests_allowed (addon w') = requests_allowed (addon w).
Proof.
  destruct l as [f | f | f]; unfold step.
  - destruct (tasks w !! f); [done |].
    by destruct (request_paths (addon w) (fresh (dom (events w))));
      intros [= <-].
  - destruct (tasks w !! f) as [[e | |] |]; try done.
    destruct (events w !! e) as [[|] |]; try done.
    unfold request_resumed. by destruct (_ >=? _); intros [= <-].
  - unfold response. destruct (truthy _ && _).
    + destruct (waiters (addon w)); simpl; [done |]. by intros [= <-].
    + by intros [= <-].
Qed.

Lemma run_limit w tr w' :
  run w tr = Some w' → requests_allowed (addon w') = requests_allowed (addon w).
Proof.
  revert w. induction tr as [| l tr IH]; intros w Hrun; simpl in Hrun.
  - by injection Hrun as <-.
  - destruct (step w l) as [w1 |] eqn:Hstep; [| done].
    rewrite (IH _ Hrun). by eapply step_limit.
Qed.

Lemma sound_queue_bound w :
  sound w → 0 ≤ requests_allowed (addon w) →
  Z.of_nat (length (waiters (addon w))) ≤ requests_allowed (addon w).
Proof.
  intros [Hc [Hq | Hq] _ _ _ _] Hn.
  - rewrite Hq. simpl. lia.
  - lia.
Qed.
End Invariant.

(** ** The queue and the limit *)

(** In every run from a new gate with a limit that is not negative, polite
    or not, and whatever the interleaving, [waiters] never holds more
    events than the limit. *)
Theorem queue_within_limit (n : Z) (tr : list Label) (w : World) :
  0 ≤ n → run (boot n) tr = Some w →
  Z.of_nat (length (waiters (addon w))) ≤ n.
Proof.
  intros Hn Hrun. pose proof (run_limit _ _ _ Hrun) as Hlim. simpl in Hlim.
  rewrite <- Hlim. apply sound_queue_bound; [| lia].
  by apply (sound_run _ _ _ (sound_boot n) Hrun).
Qed.

Lemma queue_within_limit_witness :
  Z.of_nat (length (waiters (addon two_arrived))) ≤ 2.
Proof.
  apply (queue_within_limit 2 [Arrive 1; Arrive 2] two_arrived).
  - lia.
  - vm_compute. reflexivity.
Defined.

(** In every run from a new gate, once the count of completions has
    reached the limit no event is left in [waiters]: a queued coroutine is
    always signalled before the limit is used up. *)
Theorem queue_empty_at_limit (n : Z) (tr : list Label) (w : World) :
  run (boot n) tr = Some w →
  requests_allowed (addon w) ≤ requests_completed (addon w) →
  waiters (addon w) = [].
Proof.
  intros Hrun Hge.
  destruct (sound_run _ _ _ (sound_boot n) Hrun) as [Hc [Hq | Hq] _ _ _ _];
    [done | lia].
Qed.

Lemma queue_empty_at_limit_witness : waiters (addon woken_too_late) = [].
Proof.
  apply (queue_empty_at_limit 2
           [Arrive 1; Arrive 2; Respond 1; Arrive 3; Respond 3]
           woken_too_late).
  - vm_compute. reflexivity.
  - simpl. lia.
Defined.

(** ** Completions *)

Section Frozen.
Implicit Types (w : World) (l : Label) (tr : list Label).

Lemma frozen_step w l w' :
  requests_allowed (addon w) ≤ requests_completed (addon w) →
  Forall (λ e, events w !! e = Some false) (waiters (addon w)) →
  step w l = Some w' →
  frozen w w'.
Proof.
  intros Hge Hcl Hstep. destruct l as [f | f | f]; unfold step in Hstep.
  - destruct (tasks w !! f) eqn:Hf; [done |].
    rewrite request_limit_reached in Hstep by done. injection Hstep as <-.
    destruct (history_snoc_verdict (history w) Kill f) as [_ E2].
    split; simpl; try done.
    intros f0 e Hf0 _. rewrite lookup_insert_ne; [done | congruence].
  - destruct (tasks w !! f) as [[e0 | |] |] eqn:Hf; try done.
    destruct (events w !! e0) as [[|] |] eqn:He0; try done.
    rewrite resumed_limit_reached in Hstep by done. injection Hstep as <-.
    destruct (history_snoc_verdict (history w) Kill f) as [_ E2].
    split; simpl; try done.
    intros f0 e Hf0 He. rewrite lookup_insert_ne; [done |].
    intros <-. rewrite Hf in Hf0. injection Hf0 as ->.
    rewrite Forall_forall in Hcl. specialize (Hcl _ He). congruence.
  - rewrite response_quiet in Hstep by (right; lia). injection Hstep as <-.
    destruct (history_snoc_done (history w) f) as [_ E2].
    split; simpl; try done. lia.
Qed.

Lemma frozen_run w tr w' :
  requests_allowed (addon w) ≤ requests_completed (addon w) →
  Forall (λ e, events w !! e = Some false) (waiters (addon w)) →
  run w tr = Some w' →
  frozen w w'.
Proof.
  revert w. induction tr as [| l tr IH]; intros w Hge Hcl Hrun; simpl in Hrun.
  - injection Hrun as <-. by split.
  - destruct (step w l) as [w1 |] eqn:Hstep; [| done].
    destruct (frozen_step _ _ _ Hge Hcl Hstep) as [H1 H2 H3 H4 H5].
    destruct (IH _ H1 H2 Hrun) as [K1 K2 K3 K4 K5].
    split; try done; try congruence.
    intros f e Hf He. apply K5; [by apply H5 |]. by rewrite H3.
Qed.
End Frozen.

(** C6. [response] never fails; it adds one to [requests_completed], clears
    [in_flight], keeps the limit, and calls [set()] on an event exactly when
    [waiters] is not empty and the new count is under the limit, that event
    being the head of [waiters], which it removes. Hence from a world where
    the limit is reached, whatever callbacks follow, no event is set any
    more, [waiters] stays as it is, and the coroutines parked on the queued
    events stay parked: they are neither admitted nor killed. *)
Theorem completion_wakes_head_under_limit :
  (∀ self : LimitTransfer,
     ∃ g sig,
       response self = Returned (g, sig)
       ∧ requests_completed g = requests_completed self + 1
       ∧ in_flight g = false
       ∧ requests_allowed g = requests_allowed self
       ∧ (∀ e, sig = Some e ↔
               head (waiters self) = Some e
               ∧ requests_completed g < requests_allowed g)
       ∧ waiters g = match sig with
                     | Some _ => tail (waiters self)
                     | None => waiters self
                     end)
  ∧ (∀ (w : World) (tr : list Label) (w' : World),
       Forall (λ e, events w !! e = Some false) (waiters (addon w)) →
       requests_allowed (addon w) ≤ requests_completed (addon w) →
       run w tr = Some w' →
       requests_allowed (addon w') ≤ requests_completed (addon w')
       ∧ set_events (history w') = set_events (history w)
       ∧ waiters (addon w') = waiters (addon w)
       ∧ ∀ f e, tasks w !! f = Some (Parked e) → e ∈ waiters (addon w) →
                tasks w' !! f = Some (Parked e)).
Proof.
  split.
  - intros self. destruct (waiters self) as [| e rest] eqn:Hw.
    + eexists _, _. split; [apply response_quiet; by left |].
      simpl. rewrite ?Hw. repeat split; try done. by intros [[=] _].
    + destruct (Z.lt_ge_cases (requests_completed self + 1)
                  (requests_allowed self)) as [Hlt | Hge].
      * eexists _, _. split; [by apply (response_wakes self e rest) |].
        simpl. rewrite ?Hw. repeat split; try done; simpl. by intros [? _].
      * eexists _, _. split; [apply response_quiet; by right |].
        simpl. rewrite ?Hw. repeat split; try done. simpl. intros [_ ?]. lia.
  - intros w tr w' Hcl Hge Hrun.
    by destruct (frozen_run _ _ _ Hge Hcl Hrun).
Qed.

Lemma completion_witness :
  requests_allowed (addon stranded) ≤ requests_completed (addon stranded)
  ∧ run stranded [Respond 1; Arrive 3; Respond 3]
    = Some (mkWorld (mkLimitTransfer 1 3 false [0%nat])
              {[ 0%nat := false ]}
              {[ 1%nat := Allowed; 2%nat := Parked 0; 3%nat := Killed ]}
              [ObsAllow 1; ObsStall 2 0; ObsDone 1; ObsDone 1; ObsKill 3;
               ObsDone 3])
  ∧ set_events [ObsAllow 1; ObsStall 2 0; ObsDone 1; ObsDone 1; ObsKill 3;
                ObsDone 3]
    = set_events (history stranded).
Proof.
  assert (Hrun : run stranded [Respond 1; Arrive 3; Respond 3]
                 = Some (mkWorld (mkLimitTransfer 1 3 false [0%nat])
                           {[ 0%nat := false ]}
                           {[ 1%nat := Allowed; 2%nat := Parked 0;
                              3%nat := Killed ]}
                           [ObsAllow 1; ObsStall 2 0; ObsDone 1; ObsDone 1;
                            ObsKill 3; ObsDone 3]))
    by (vm_compute; reflexivity).
  assert (Hcl : Forall (λ e, events stranded !! e = Some false)
                  (waiters (addon stranded)))
    by (repeat constructor).
  assert (Hge : requests_allowed (addon stranded)
                ≤ requests_completed (addon stranded))
    by (simpl; lia).
  split; [exact Hge |]. split; [exact Hrun |].
  exact (proj1 (proj2 (proj2 completion_wakes_head_under_limit
                         stranded _ _ Hcl Hge Hrun))).
Defined.

(** ** Order of service *)

(** C7. In every run from a new gate the events are set in the order in
    which they were appended to [waiters]: the sequence of [set()] calls is
    a prefix of the sequence of appends, the rest being the queue itself,
    and no event is appended twice. So when A was appended before B and B
    has been set, A has been set as well, and earlier. *)
Theorem waiters_served_fifo (n : Z) (tr : list Label) (w : World) :
  run (boot n) tr = Some w →
  stalled_events (history w) = set_events (history w) ++ waiters (addon w)
  ∧ NoDup (stalled_events (history w))
  ∧ ∀ (i j q : nat) (a b : Event),
      stalled_events (history w) !! i = Some a →
      stalled_events (history w) !! j = Some b →
      (i < j)%nat →
      set_events (history w) !! q = Some b →
      set_events (history w) !! i = Some a ∧ (i < q)%nat.
Proof.
  intros Hrun.
  destruct (sound_run _ _ _ (sound_boot n) Hrun) as [_ _ _ Hfifo _ Hnd].
  split; [done |]. split; [done |].
  intros i j q a b Ha Hb Hij Hq.
  assert (Hq' : stalled_events (history w) !! q = Some b).
  { rewrite Hfifo. by apply lookup_app_l_Some. }
  assert (q = j) as -> by (eapply NoDup_lookup; eauto).
  split; [| done].
  apply lookup_lt_Some in Hq.
  rewrite Hfifo, lookup_app_l in Ha by lia. done.
Qed.

Lemma waiters_served_fifo_witness :
  stalled_events
    [ObsAllow 1; ObsStall 2 0; ObsStall 3 1; ObsStall 4 2; ObsDone 1;
     ObsSet 0; ObsAllow 2; ObsDone 2; ObsSet 1]
  = set_events
      [ObsAllow 1; ObsStall 2 0; ObsStall 3 1; ObsStall 4 2; ObsDone 1;
       ObsSet 0; ObsAllow 2; ObsDone 2; ObsSet 1]
    ++ [2%nat].
Proof.
  assert (Hrun : run (boot 4) queue_of_three
                 = Some (mkWorld (mkLimitTransfer 4 2 false [2%nat])
                           {[ 0%nat := true; 1%nat := true; 2%nat := false ]}
                           {[ 1%nat := Allowed; 2%nat := Allowed;
                              3%nat := Parked 1; 4%nat := Parked 2 ]}
                           [ObsAllow 1; ObsStall 2 0; ObsStall 3 1;
                            ObsStall 4 2; ObsDone 1; ObsSet 0; ObsAllow 2;
                            ObsDone 2; ObsSet 1]))
    by (vm_compute; reflexivity).
  exact (proj1 (waiters_served_fifo 4 queue_of_three _ Hrun)).
Defined.

(** ** Responses nobody was waiting for *)

(** C9, as the code has it. The response hook checks nothing: for any
    flow, admitted or not, completed already or not, and in any world, it
    returns normally, counts one more completion and clears [in_flight];
    the coroutine table is not consulted. *)
Theorem response_counts_any_flow (w : World) (f : Flow) :
  ∃ w',
    step w (Respond f) = Some w'
    ∧ requests_completed (addon w') = requests_completed (addon w) + 1
    ∧ in_flight (addon w') = false
    ∧ tasks w' = tasks w
    ∧ done_flows (history w') = done_flows (history w) ++ [f].
Proof.
  unfold step, done_flows.
  destruct (waiters (addon w)) as [| e rest] eqn:Hw.
  - rewrite response_quiet by (by left). eexists. split; [done |].
    simpl. by rewrite omap_app.
  - destruct (Z.lt_ge_cases (requests_completed (addon w) + 1)
                (requests_allowed (addon w))) as [Hlt | Hge].
    + rewrite (response_wakes _ e rest) by done. eexists. split; [done |].
      simpl. by rewrite omap_app.
    + rewrite response_quiet by (by right). eexists. split; [done |].
      simpl. by rewrite omap_app.
Qed.

(** C9 fails as stated: a response for a flow the gate never saw, and a
    second response for a flow already completed, are both counted. *)
Lemma response_unchecked :
  run (boot 2) [Respond 7]
  = Some (mkWorld (mkLimitTransfer 2 1 false []) ∅ ∅ [ObsDone 7])
  ∧ run (boot 2) [Arrive 1; Respond 1; Respond 1]
    = Some (mkWorld (mkLimitTransfer 2 2 false []) ∅
              {[ 1%nat := Allowed ]}
              [ObsAllow 1; ObsDone 1; ObsDone 1])
  ∧ polite (boot 2) [Respond 7] = false
  ∧ polite (boot 2) [Arrive 1; Respond 1; Respond 1] = false.
Proof. vm_compute. done. Qed.

(** ** The gap between [set()] and the resumption *)

Lemma run_race : run (boot 2) race = Some raced.
Proof. vm_compute. reflexivity. Qed.

(** C1: the code at the failing interleaving. The collaborator keeps its
    side of the contract, the limit is 2, and three flows are admitted. *)
Theorem race_admits_three :
  run (boot 2) race = Some raced
  ∧ polite (boot 2) race = true
  ∧ requests_allowed (addon raced) = 2
  ∧ allowed_flows (history raced) = [1%nat; 3%nat; 2%nat]
  ∧ Z.of_nat (length (allowed_flows (history raced))) = 3.
Proof. vm_compute. done. Qed.

(** C2: the code at the failing interleaving. Flows 3 and 2 are both
    admitted and neither has completed. *)
Theorem race_two_in_flight :
  run (boot 2) race = Some raced
  ∧ polite (boot 2) race = true
  ∧ between raced = [3%nat; 2%nat]
  ∧ tasks raced !! 2%nat = Some Allowed
  ∧ tasks raced !! 3%nat = Some Allowed
  ∧ done_flows (history raced) = [1%nat].
Proof. vm_compute. done. Qed.

(** C3: the code at the failing interleaving, run to the end. Each of the
    three admitted flows gets its one response, and the count passes the
    limit. *)
Theorem race_completes_three :
  polite (boot 2) (race ++ [Respond 2; Respond 3]) = true
  ∧ run (boot 2) (race ++ [Respond 2; Respond 3])
    = Some (mkWorld (mkLimitTransfer 2 3 false [])
              {[ 0%nat := true ]}
              {[ 1%nat := Allowed; 2%nat := Allowed; 3%nat := Allowed ]}
              [ObsAllow 1; ObsStall 2 0; ObsDone 1; ObsSet 0; ObsAllow 3;
               ObsAllow 2; ObsDone 2; ObsDone 3])
  ∧ requests_allowed (mkLimitTransfer 2 3 false [])
    < requests_completed (mkLimitTransfer 2 3 false []).
Proof. vm_compute. done. Qed.

(** ** Construction *)

Section Decimal.
Implicit Types (s : string) (c : ascii) (x : N) (py : Interpreter).

Lemma digit_char_plain c d :
  digit_value c = Some d →
  is_blank c = false ∧ Ascii.eqb c "_" = false
  ∧ c ≠ "-"%char ∧ c ≠ "+"%char
  ∧ (nat_of_ascii c <? 128)%nat = true.
Proof.
  destruct c as [[] [] [] [] [] [] [] []]; vm_compute; intros [=]; done.
Qed.

Lemma pretty_N_char_digit x :
  (x < 10)%N → digit_value (pretty_N_char x) = Some (Z.of_N x).
Proof.
  intros Hx.
  assert (x = 0 ∨ x = 1 ∨ x = 2 ∨ x = 3 ∨ x = 4 ∨ x = 5 ∨ x = 6 ∨ x = 7
          ∨ x = 8 ∨ x = 9)%N as Hcases by lia.
  repeat destruct Hcases as [-> | Hcases]; try subst x; reflexivity.
Qed.

Lemma digits_only_lstrip s : digits_only s → lstrip s = s.
Proof.
  destruct s as [| c s]; [done |]. intros [[d Hd] _]. simpl.
  by destruct (digit_char_plain c d Hd) as (-> & _).
Qed.

Lemma digits_only_rstrip s : digits_only s → rstrip s = s.
Proof.
  induction s as [| c s IH]; [done |]. intros [[d Hd] Hs]. simpl.
  rewrite (IH Hs). destruct s; [| done].
  by destruct (digit_char_plain c d Hd) as (-> & _).
Qed.

Lemma digits_only_ascii s : digits_only s → all_ascii s = true.
Proof.
  induction s as [| c s IH]; [done |]. intros [[d Hd] Hs].
  cbn [all_ascii]. rewrite (IH Hs).
  by destruct (digit_char_plain c d Hd) as (_ & _ & _ & _ & ->).
Qed.

Lemma digits_only_count s : digits_only s → count_digits s = String.length s.
Proof.
  induction s as [| c s IH]; [done |]. intros [[d Hd] Hs].
  cbn [count_digits String.length]. by rewrite Hd, (IH Hs).
Qed.

Lemma digits_only_pretty x s : digits_only s → digits_only (pretty_N_go x s).
Proof.
  revert s. induction (N.lt_wf_0 x) as [x _ IH]. intros s Hs.
  destruct (decide (x = 0)%N) as [-> | Hx]; [by rewrite pretty_N_go_0 |].
  rewrite pretty_N_go_step by lia. apply IH.
  - apply N.div_lt; lia.
  - split; [| done]. rewrite pretty_N_char_digit; [by eexists |].
    apply N.mod_lt. lia.
Qed.

(** Reading back what the printer wrote, digit by digit. *)
Lemma int_digits_pretty x s :
  (0 < x)%N →
  int_digits (pretty_N_go x s) 0 false = int_digits s (Z.of_N x) true.
Proof.
  revert s. induction (N.lt_wf_0 x) as [x _ IH]. intros s Hx.
  rewrite pretty_N_go_step by done.
  assert (Hc : digit_value (pretty_N_char (x `mod` 10)) =
               Some (Z.of_N (x `mod` 10)))
    by (apply pretty_N_char_digit, N.mod_lt; lia).
  destruct (digit_char_plain _ _ Hc) as (_ & Hu & _).
  assert (Hlt : (x `div` 10 < x)%N) by (apply N.div_lt; lia).
  pose proof (N.div_mod x 10 ltac:(lia)) as Hdm.
  remember (x `div` 10)%N as q eqn:Eq. remember (x `mod` 10)%N as r eqn:Er.
  destruct (decide (q = 0)%N) as [Hq | Hq].
  - rewrite Hq, pretty_N_go_0. simpl. rewrite Hu, Hc. f_equal. lia.
  - rewrite IH by (done || lia).
    simpl. rewrite Hu, Hc. f_equal. lia.
Qed.

(** A number below [10 ^ k] is written with at most [k] digits. *)
Lemma pretty_N_go_length x s (k : nat) :
  (x < 10 ^ N.of_nat k)%N →
  (String.length (pretty_N_go x s) ≤ k + String.length s)%nat.
Proof.
  revert s k. induction (N.lt_wf_0 x) as [x _ IH]. intros s k Hx.
  destruct (decide (x = 0)%N) as [-> | Hpos].
  { rewrite pretty_N_go_0. lia. }
  rewrite pretty_N_go_step by lia.
  destruct k as [| k].
  { change (10 ^ N.of_nat 0)%N with 1%N in Hx. lia. }
  rewrite Nat2N.inj_succ, N.pow_succ_r' in Hx.
  etrans; [apply (IH (x `div` 10)%N) with (k := k) |].
  - apply N.div_lt; lia.
  - by apply N.Div0.div_lt_upper_bound.
  - simpl. lia.
Qed.

(** The text of a positive number, read as the body of an integer. *)
Lemma int_body_positive py (p : positive) :
  digits_only (pretty (Npos p))
  ∧ pretty (Npos p) ≠ EmptyString
  ∧ int_body py (pretty (Npos p))
    = if over_limit (int_max_str_digits py)
           (String.length (pretty (Npos p)))
      then Raised ValueError else Returned (Zpos p).
Proof.
  unfold pretty, pretty_N. rewrite decide_False by done.
  set (t := pretty_N_go (N.pos p) "").
  assert (Hd : digits_only t) by (by apply digits_only_pretty).
  assert (Hv : int_digits t 0 false = Returned (Zpos p))
    by (unfold t; by rewrite int_digits_pretty).
  split; [done |]. split.
  - intros Ht. by rewrite Ht in Hv.
  - unfold int_body. by rewrite Hv, digits_only_count.
Qed.

(** [int(str(n))], for every integer: [n] unless the text has too many
    digits for the interpreter. *)
Lemma int_of_text_pretty py (n : Z) :
  int_of_text py (pretty n)
  = if over_limit (int_max_str_digits py)
         (String.length (pretty (Z.abs n)))
    then Raised ValueError else Returned n.
Proof.
  destruct n as [| p | p].
  - reflexivity.
  - destruct (int_body_positive py p) as (Hd & Hne & Hv).
    change (pretty (Z.abs (Z.pos p))) with (pretty (N.pos p)).
    change (pretty (Z.pos p)) with (pretty (N.pos p)).
    unfold int_of_text, strip.
    rewrite digits_only_ascii, digits_only_lstrip, digits_only_rstrip
      by done.
    destruct (pretty (N.pos p)) as [| c t'] eqn:Ht; [done |].
    destruct Hd as [[d Hd] _].
    destruct (digit_char_plain c d Hd) as (_ & _ & Hm & Hp & _).
    rewrite <- Hv.
    destruct c as [[] [] [] [] [] [] [] []]; done.
  - destruct (int_body_positive py p) as (Hd & Hne & Hv).
    change (pretty (Z.abs (Z.neg p))) with (pretty (N.pos p)).
    change (pretty (Z.neg p)) with (String "-" (pretty (N.pos p))).
    unfold int_of_text, strip.
    assert (Ha : all_ascii (String "-" (pretty (N.pos p))) = true).
    { cbn [all_ascii]. by rewrite digits_only_ascii. }
    assert (Hs : rstrip (lstrip (String "-" (pretty (N.pos p))))
                 = String "-" (pretty (N.pos p))).
    { simpl. rewrite digits_only_rstrip by done.
      by destruct (pretty (N.pos p)). }
    rewrite Ha, Hs, Hv.
    by destruct (over_limit _ _).
Qed.

(** Below [10 ^ 640] in absolute value no interpreter finds too many
    digits. *)
Lemma small_within_limit (max_str_digits : nat) (n : Z) :
  - 10 ^ 640 < n < 10 ^ 640 →
  over_limit max_str_digits (String.length (pretty (Z.abs n))) = false.
Proof.
  intros Hn.
  assert (Hlen : (String.length (pretty (Z.abs n)) ≤ 640)%nat).
  { destruct n as [| p | p]; [simpl; lia | |].
    - change (pretty (Z.abs (Z.pos p))) with (pretty_N (N.pos p)).
      unfold pretty_N. rewrite decide_False by done.
      etrans; [apply (pretty_N_go_length _ _ 640) | simpl; lia].
      apply N2Z.inj_lt. rewrite N2Z.inj_pow. apply Hn.
    - change (pretty (Z.abs (Z.neg p))) with (pretty_N (N.pos p)).
      unfold pretty_N. rewrite decide_False by done.
      etrans; [apply (pretty_N_go_length _ _ 640) | simpl; lia].
      apply N2Z.inj_lt. rewrite N2Z.inj_pow.
      change (Z.of_N (N.pos p)) with (- Z.neg p).
      change (Z.of_N 10) with 10. change (Z.of_N (N.of_nat 640)) with 640.
      lia. }
  unfold over_limit.
  destruct (Nat.ltb_spec 640 (String.length (pretty (Z.abs n)))); [lia | done].
Qed.
End Decimal.

(** C8, as the code has it. [__init__] checks no sign: with
    [LIMIT_REQUESTS] set to the decimal text of an integer [n], negative
    or not, construction goes as [int] does on that text. It succeeds, and
    the gate has limit [n], no completed request, nothing in flight and no
    waiter, unless the text has more digits than the interpreter reads;
    that never happens for [n] between [-10^640] and [10^640]. Without the
    variable the limit is 2. Construction fails only when [int] raises,
    and with its exception. *)
Theorem init_accepts_any_integer :
  (∀ (py : Interpreter) (environ : gmap string string) (n : Z),
     __init__ py (<["LIMIT_REQUESTS"%string := pretty n]> environ)
     = if over_limit (int_max_str_digits py)
            (String.length (pretty (Z.abs n)))
       then Raised ValueError else Returned (new_gate n))
  ∧ (∀ (py : Interpreter) (environ : gmap string string) (n : Z),
       - 10 ^ 640 < n < 10 ^ 640 →
       __init__ py (<["LIMIT_REQUESTS"%string := pretty n]> environ)
       = Returned (new_gate n))
  ∧ (∀ (py : Interpreter) (environ : gmap string string),
       environ !! "LIMIT_REQUESTS"%string = None →
       __init__ py environ = Returned (new_gate 2))
  ∧ (∀ (py : Interpreter) (environ : gmap string string) (e : PyError),
       __init__ py environ = Raised e →
       ∃ text, environ !! "LIMIT_REQUESTS"%string = Some text
               ∧ int_of_text py text = Raised e).
Proof.
  assert (H1 : ∀ (py : Interpreter) (environ : gmap string string) (n : Z),
             __init__ py (<["LIMIT_REQUESTS"%string := pretty n]> environ)
             = if over_limit (int_max_str_digits py)
                    (String.length (pretty (Z.abs n)))
               then Raised ValueError else Returned (new_gate n)).
  { intros py environ n. unfold __init__.
    rewrite lookup_insert_eq, int_of_text_pretty.
    by destruct (over_limit _ _). }
  split; [exact H1 |]. split; [| split].
  - intros py environ n Hn. by rewrite H1, small_within_limit.
  - intros py environ Hnone. unfold __init__. by rewrite Hnone.
  - intros py environ e. unfold __init__.
    destruct (environ !! "LIMIT_REQUESTS"%string) as [text |]; [| done].
    destruct (int_of_text py text) as [n | e'] eqn:Ht; [done |].
    intros [= ->]. by exists text.
Qed.

Lemma init_witness :
  __init__ default_interpreter
    (<["LIMIT_REQUESTS"%string := pretty (-7)]> ∅)
  = Returned (new_gate (-7)).
Proof.
  apply (proj1 (proj2 init_accepts_any_integer) default_interpreter ∅ (-7)).
  split; [reflexivity |].
  apply Z.lt_trans with (10 ^ 1); [reflexivity |].
  apply Z.pow_lt_mono_r; lia.
Defined.

(** C8 fails as stated: [LIMIT_REQUESTS=-1] builds a gate whose limit is
    negative, whatever the interpreter. *)
Lemma init_negative_limit :
  (∀ py : Interpreter,
     __init__ py {[ "LIMIT_REQUESTS"%string := "-1"%string ]}
     = Returned (mkLimitTransfer (-1) 0 false []))
  ∧ requests_allowed (mkLimitTransfer (-1) 0 false []) < 0.
Proof. split; [intros py; reflexivity | reflexivity]. Qed.

(** ** When the woken coroutine runs at once *)

Section Prompt.
Implicit Types (w : World) (h : list Obs) (f : Flow) (e : Event).

Lemma allowed_flows_app h1 h2 :
  allowed_flows (h1 ++ h2) = allowed_flows h1 ++ allowed_flows h2.
Proof. apply omap_app. Qed.

Lemma done_flows_app h1 h2 :
  done_flows (h1 ++ h2) = done_flows h1 ++ done_flows h2.
Proof. apply omap_app. Qed.

Lemma owner_app h1 h2 e :
  owner (h1 ++ h2) e
  = match owner h1 e with Some f => Some f | None => owner h2 e end.
Proof.
  unfold owner. rewrite omap_app.
  by destruct (omap _ h1).
Qed.

Lemma owner_stalled h e f : owner h e = Some f → e ∈ stalled_events h.
Proof.
  unfold owner, stalled_events. induction h as [| o h IH]; [done |].
  destruct o as [f0 | f0 e0 | f0 | f0 | e0]; simpl; try done.
  destruct (decide (e0 = e)) as [-> | Hne]; simpl.
  - intros _. apply list_elem_of_here.
  - intros H. apply list_elem_of_further. by apply IH.
Qed.

Lemma owner_fresh h e : e ∉ stalled_events h → owner h e = None.
Proof.
  intros Hnot. destruct (owner h e) as [f |] eqn:Ho; [| done].
  by apply owner_stalled in Ho.
Qed.

Lemma filter_done_snoc (d l : list Flow) f :
  filter (λ x, x ∉ d ++ [f]) l = filter (λ x, x ≠ f) (filter (λ x, x ∉ d) l).
Proof.
  induction l as [| x l IH]; [done |].
  rewrite !filter_cons.
  destruct (decide (x ∉ d ++ [f])) as [Hin | Hin];
    destruct (decide (x ∉ d)) as [Hd | Hd].
  - rewrite filter_cons. rewrite decide_True; [by rewrite IH |].
    intros ->. apply Hin, elem_of_app. right. apply list_elem_of_here.
  - exfalso. apply Hd. intros Hxd. apply Hin, elem_of_app. by left.
  - rewrite filter_cons. rewrite decide_False; [by rewrite IH |].
    intros Hne. apply Hin. intros [? | ->%list_elem_of_singleton]%elem_of_app;
      done.
  - apply IH.
Qed.

Lemma between_snoc_allow w f :
  f ∉ done_flows (history w) →
  filter (λ x, x ∉ done_flows (history w))
    (allowed_flows (history w) ++ [f])
  = between w ++ [f].
Proof.
  intros Hf. unfold between. rewrite filter_app. f_equal.
  rewrite filter_cons, decide_True by done. done.
Qed.

(** A polite response is for the one flow in flight. *)
Lemma polite_response_in_flight n w f :
  settled n w → polite_step w (Respond f) = true →
  in_flight (addon w) = true ∧ between w = [f]
  ∧ requests_completed (addon w) < n.
Proof.
  intros Hs Hpol. simpl in Hpol.
  apply andb_true_iff in Hpol as [Ht%bool_decide_eq_true Hd%bool_decide_eq_true].
  assert (Hin : f ∈ between w).
  { unfold between. apply list_elem_of_filter. split; [done |].
    by apply (settled_tasks n w Hs). }
  destruct (in_flight (addon w)) eqn:Hfl.
  - destruct (settled_busy n w Hs Hfl) as [f0 Hb]. rewrite Hb in Hin.
    apply list_elem_of_singleton in Hin as ->.
    split; [done |]. split; [done |]. by apply (settled_room n w Hs).
  - rewrite (settled_idle n w Hs Hfl) in Hin. by apply elem_of_nil in Hin.
Qed.
Lemma owner_kept h1 h2 e f :
  owner h1 e = Some f → owner (h1 ++ h2) e = Some f.
Proof. intros H. by rewrite owner_app, H. Qed.

Ltac readings :=
  unfold between; simpl;
  rewrite ?allowed_flows_app, ?done_flows_app; simpl;
  rewrite ?app_nil_r.

Lemma settled_request n w f w' :
  settled n w → step w (Arrive f) = Some w' → settled n w'.
Proof.
  intros Hs Hstep.
  assert (Hsound' : sound w') by (eapply sound_step; [apply Hs | done]).
  destruct Hs as [Hsound Hlim Hidle Hbusy Hcount Hroom Hcap Htasks Hdone Hown].
  unfold step in Hstep. destruct (tasks w !! f) eqn:Hf; [done |].
  assert (Hnew : f ∉ allowed_flows (history w)).
  { intros Hin. apply Htasks in Hin. congruence. }
  assert (Hnd : f ∉ done_flows (history w)) by (intros Hin; by apply Hnew, Hdone).
  assert (Hother : ∀ f0 t x, tasks w !! f0 = Some t →
                             <[f := x]> (tasks w) !! f0 = Some t).
  { intros f0 t x Hf0. rewrite lookup_insert_ne; [done | congruence]. }
  assert (Hstays : ∀ x, x ≠ Allowed → ∀ f0,
            <[f := x]> (tasks w) !! f0 = Some Allowed
            ↔ f0 ∈ allowed_flows (history w)).
  { intros x Hx f0. destruct (decide (f = f0)) as [<- | Hne].
    - rewrite lookup_insert_eq. split; [congruence | done].
    - rewrite lookup_insert_ne by done. apply Htasks. }
  set (ev := fresh (dom (events w))) in *.
  destruct (request_paths (addon w) ev)
    as [Hge | Hlt Hfl Hge | Hlt Hfl Hp | Hlt Hfl]; injection Hstep as <-.
  - split; try done; readings; try done.
    + by apply Hstays.
    + intros e He. destruct (Hown e He) as (f0 & Ho & Ht).
      exists f0. split; [by apply owner_kept | by apply Hother].
  - split; try done; readings; try done.
    + by apply Hstays.
    + intros e He. destruct (Hown e He) as (f0 & Ho & Ht).
      exists f0. split; [by apply owner_kept | by apply Hother].
  - split; try done; readings; try done.
    + intros _. by apply Hbusy.
    + intros _. by apply Hroom.
    + by apply Hstays.
    + intros e [He | ->%list_elem_of_singleton]%elem_of_app.
      * destruct (Hown e He) as (f0 & Ho & Ht).
        exists f0. split; [by apply owner_kept | by apply Hother].
      * exists f. split; [| apply lookup_insert_eq].
        rewrite owner_app, owner_fresh.
        -- unfold owner. simpl. by rewrite decide_True.
        -- intros Hin. pose proof (sound_alloc w Hsound) as Hal.
           rewrite Forall_forall in Hal. destruct (Hal _ Hin) as [b Hb].
           assert (events w !! ev = None) as Hev
             by apply not_elem_of_dom, is_fresh.
           congruence.
  - specialize (Hidle Hfl). split; try done; readings.
    + intros _. exists f.
      rewrite between_snoc_allow by done. by rewrite Hidle.
    + rewrite between_snoc_allow by done. rewrite Hidle in *.
      rewrite !length_app. simpl in *. lia.
    + intros _. lia.
    + intros f0. rewrite elem_of_app, list_elem_of_singleton.
      destruct (decide (f = f0)) as [<- | Hne].
      * rewrite lookup_insert_eq. split; [by right | done].
      * rewrite lookup_insert_ne by done. rewrite Htasks.
        split; [by left | by intros [? | ?]].
    + intros f0 Hin. apply elem_of_app. left. by apply Hdone.
    + intros e He. destruct (Hown e He) as (f0 & Ho & Ht).
      exists f0. split; [by apply owner_kept | by apply Hother].
Qed.
Lemma settled_response n w f w' :
  settled n w → polite_step w (Respond f) = true →
  run w (handoff w (Response f)) = Some w' → settled n w'.
Proof.
  intros Hs Hpol Hrun.
  assert (Hsound' : sound w') by (eapply sound_run; [apply Hs | done]).
  destruct (polite_response_in_flight n w f Hs Hpol) as (Hfl & Hb & Hlt).
  simpl in Hpol.
  apply andb_true_iff in Hpol as [Ht%bool_decide_eq_true Hd%bool_decide_eq_true].
  destruct Hs as [Hsound Hlim Hidle Hbusy Hcount Hroom Hcap Htasks Hdone Hown].
  assert (Hgone : filter (λ x, x ∉ done_flows (history w) ++ [f])
                    (allowed_flows (history w)) = []).
  { rewrite filter_done_snoc. fold (between w). rewrite Hb.
    rewrite filter_cons, decide_False; [done |]. by intros ?. }
  assert (Hfa : f ∈ allowed_flows (history w)) by (by apply Htasks).
  rewrite Hb in Hcount. simpl in Hcount.
  destruct (waiters (addon w)) as [| e rest] eqn:Hw.
  - (* nobody waits *)
    simpl in Hrun. unfold step in Hrun.
    rewrite response_quiet in Hrun by (by left). simpl in Hrun.
    injection Hrun as <-.
    split; try done; readings; rewrite ?Hgone; simpl; try done.
    + lia.
    + lia.
    + intros f0 [? | ->%list_elem_of_singleton]%elem_of_app; auto.
    + rewrite ?Hw. intros e He. by apply elem_of_nil in He.
  - (* the head of the queue is woken and runs on *)
    assert (Hq : requests_completed (addon w) + 1 < requests_allowed (addon w)).
    { destruct (sound_queue w Hsound) as [Hq | Hq]; [congruence |].
      rewrite ?Hw in Hq. simpl in Hq. lia. }
    destruct (Hown e) as (f' & Ho & Hf'); [rewrite ?Hw; apply list_elem_of_here |].
    assert (Hnd : NoDup (e :: rest)).
    { rewrite <- Hw. by apply sound_waiters_nodup. }
    apply NoDup_cons in Hnd as [Hne _].
    assert (Hf'a : f' ∉ allowed_flows (history w)).
    { intros Hin. apply Htasks in Hin. congruence. }
    assert (Hf'd : f' ∉ done_flows (history w) ++ [f]).
    { intros [Hin | ->%list_elem_of_singleton]%elem_of_app.
      - by apply Hf'a, Hdone.
      - congruence. }
    unfold handoff in Hrun. rewrite (response_wakes _ e rest) in Hrun by done.
    rewrite Ho in Hrun. cbn [run] in Hrun.
    assert (H1 : step w (Respond f)
                 = Some (mkWorld
                           (mkLimitTransfer (requests_allowed (addon w))
                              (requests_completed (addon w) + 1) false rest)
                           (<[e := true]> (events w)) (tasks w)
                           (history w ++ [ObsDone f; ObsSet e]))).
    { unfold step. by rewrite (response_wakes _ e rest). }
    rewrite H1 in Hrun. unfold step in Hrun. cbn [tasks events addon] in Hrun.
    rewrite Hf', lookup_insert_eq in Hrun.
    rewrite resumed_under_limit in Hrun by (simpl; lia).
    cbn [requests_allowed requests_completed waiters history verdict_task
         verdict_obs] in Hrun.
    injection Hrun as <-.
    split; try done; readings.
    + intros _. exists f'. rewrite filter_app, Hgone. simpl.
      by rewrite filter_cons, decide_True.
    + rewrite filter_app, Hgone. simpl.
      rewrite filter_cons, decide_True by done.
      rewrite !length_app. simpl. lia.
    + intros _. lia.
    + lia.
    + intros f0. rewrite elem_of_app, list_elem_of_singleton.
      destruct (decide (f' = f0)) as [<- | Hne'].
      * rewrite lookup_insert_eq. split; [by right | done].
      * rewrite lookup_insert_ne by done. rewrite Htasks.
        split; [by left | by intros [? | ?]].
    + intros f0 [Hin | ->%list_elem_of_singleton]%elem_of_app;
        apply elem_of_app; left; auto.
    + intros e0 He0.
      destruct (Hown e0) as (f0 & Ho0 & Hf0);
        [rewrite ?Hw; by apply list_elem_of_further |].
      exists f0. split.
      * rewrite <- app_assoc. by apply owner_kept.
      * rewrite lookup_insert_ne; [done |].
        intros <-. rewrite Hf' in Hf0. injection Hf0 as <-. done.
Qed.

Lemma settled_boot n : settled n (boot n).
Proof.
  split; try done.
  - apply sound_boot.
  - simpl. lia.
  - intros f. simpl. rewrite lookup_empty. split; [done |].
    by intros ?%elem_of_nil.
  - intros e ?%elem_of_nil. done.
Qed.

Lemma settled_run_prompt n w cs w' :
  settled n w → run_prompt w cs = Some w' → settled n w'.
Proof.
  revert w. induction cs as [| c cs IH]; intros w Hs Hrun; simpl in Hrun.
  - by injection Hrun as <-.
  - destruct (polite_call w c) eqn:Hpol; [| done].
    destruct (run w (handoff w c)) as [w1 |] eqn:Hc; [| done].
    apply (IH w1); [| done].
    destruct c as [f | f].
    + cbn [handoff run] in Hc.
      destruct (step w (Arrive f)) as [w2 |] eqn:Hstep; [| done].
      injection Hc as <-. by eapply settled_request.
    + by eapply settled_response.
Qed.

(** A prompt run is one of the runs of the event loop, and a polite one. *)
Lemma run_prompt_is_run w cs w' :
  run_prompt w cs = Some w' →
  run w (prompt_trace w cs) = Some w'.
Proof.
  revert w. induction cs as [| c cs IH]; intros w Hrun; simpl in *; [done |].
  destruct (polite_call w c); [| done].
  destruct (run w (handoff w c)) as [w1 |] eqn:Hc; [| done].
  rewrite run_app, Hc. simpl. by apply IH.
Qed.

Lemma polite_app w tr1 tr2 w1 :
  run w tr1 = Some w1 →
  polite w (tr1 ++ tr2) = polite w tr1 && polite w1 tr2.
Proof.
  revert w. induction tr1 as [| l tr1 IH]; intros w Hrun; simpl in *.
  - by injection Hrun as <-.
  - destruct (step w l) as [w0 |]; [| done].
    rewrite (IH _ Hrun). by rewrite andb_assoc.
Qed.

Lemma polite_handoff w c w1 :
  polite_call w c = true → run w (handoff w c) = Some w1 →
  polite w (handoff w c) = true.
Proof.
  intros Hpol Hrun. destruct c as [f | f]; cbn [handoff run polite] in *.
  - by destruct (step w (Arrive f)).
  - cbn [polite_call] in Hpol. rewrite Hpol.
    destruct (step w (Respond f)) as [w0 |]; [| done].
    destruct (response (addon w)) as [[g [e |]] | err]; try done.
    destruct (owner (history w) e) as [f' |]; [| done].
    cbn [run polite polite_step] in *.
    by destruct (step w0 (Resume f')).
Qed.

Lemma run_prompt_polite w cs w' :
  run_prompt w cs = Some w' → polite w (prompt_trace w cs) = true.
Proof.
  revert w. induction cs as [| c cs IH]; intros w Hrun; simpl in *; [done |].
  destruct (polite_call w c) eqn:Hpol; [| done].
  destruct (run w (handoff w c)) as [w1 |] eqn:Hc; [| done].
  rewrite (polite_app _ _ _ _ Hc), (polite_handoff _ _ _ Hpol Hc).
  by apply IH.
Qed.
End Prompt.

(** Under prompt resumption the gate does what its docstring says: for a
    polite collaborator, at most one admitted flow is between arrival and
    completion, no more flows are admitted than the limit allows, and the
    count of completions stays within the limit. The interleaving [race]
    is exactly what this excludes. *)
Theorem handoff_keeps_gate (n : Z) (cs : list Call) (w : World) :
  0 ≤ n →
  run_prompt (boot n) cs = Some w →
  run (boot n) (prompt_trace (boot n) cs) = Some w
  ∧ polite (boot n) (prompt_trace (boot n) cs) = true
  ∧ (length (between w) ≤ 1)%nat
  ∧ Z.of_nat (length (allowed_flows (history w))) ≤ n
  ∧ requests_completed (addon w) ≤ n
  ∧ Z.of_nat (length (waiters (addon w))) ≤ n.
Proof.
  intros Hn Hrun.
  pose proof (run_prompt_is_run _ _ _ Hrun) as Hrun'.
  pose proof (run_prompt_polite _ _ _ Hrun) as Hpol.
  destruct (settled_run_prompt n _ _ _ (settled_boot n) Hrun)
    as [Hsound Hlim Hidle Hbusy Hcount Hroom Hcap Htasks Hdone Hown].
  split; [done |]. split; [done |].
  assert (Hq : Z.of_nat (length (waiters (addon w))) ≤ n)
    by (rewrite <- Hlim; apply sound_queue_bound; [done | lia]).
  destruct (in_flight (addon w)) eqn:Hfl.
  - destruct (Hbusy eq_refl) as [f Hb]. specialize (Hroom eq_refl).
    rewrite Hb in *. simpl in *. repeat split; lia.
  - rewrite (Hidle eq_refl) in *. simpl in *. repeat split; lia.
Qed.

Lemma handoff_keeps_gate_witness :
  run (boot 2)
    (prompt_trace (boot 2)
       [Request 1; Request 2; Response 1; Request 3; Response 2; Request 4])
  = Some (mkWorld (mkLimitTransfer 2 2 false [])
            {[ 0%nat := true ]}
            {[ 1%nat := Allowed; 2%nat := Allowed; 3%nat := Killed;
               4%nat := Killed ]}
            [ObsAllow 1; ObsStall 2 0; ObsDone 1; ObsSet 0; ObsAllow 2;
             ObsKill 3; ObsDone 2; ObsKill 4]).
Proof.
  refine (proj1 (handoff_keeps_gate 2
            [Request 1; Request 2; Response 1; Request 3; Response 2;
             Request 4] _ _ _)).
  - lia.
  - vm_compute. reflexivity.
Defined.

(** * The test matrix *)

Section TestMatrix.
Implicit Types (s p name test os : string) (files : list string).

Lemma endswith_spec s suffix :
  endswith s suffix = true ↔ ∃ p, s = p +:+ suffix.
Proof.
  induction s as [| c s IH]; cbn [endswith].
  - rewrite orb_false_r, String.eqb_eq. split.
    + intros <-. by exists EmptyString.
    + intros [[| c p] Hp]; simpl in Hp; [done | discriminate].
  - rewrite orb_true_iff, String.eqb_eq, IH. split.
    + intros [<- | [p ->]]; [by exists EmptyString | by exists (String c p)].
    + intros [[| c' p] Hp]; simpl in Hp; [by left |].
      injection Hp as <- ->. right. by exists p.
Qed.

Lemma length_append_rs p : String.length (p +:+ ".rs") = (String.length p + 3)%nat.
Proof. induction p as [| c p IH]; simpl; [done | by rewrite IH]. Qed.

Lemma all_but_last3_rs p : all_but_last3 (p +:+ ".rs") = p.
Proof.
  induction p as [| c p IH]; [done |].
  change (String c p +:+ ".rs")%string with (String c (p +:+ ".rs")).
  cbn [all_but_last3 String.length]. rewrite length_append_rs, IH.
  destruct (Nat.leb_spec (S (String.length p + 3)) 3); [lia | done].
Qed.

Lemma append_rs_inj p q : p +:+ ".rs" = q +:+ ".rs" → p = q.
Proof. intros H. by rewrite <- (all_but_last3_rs p), H, all_but_last3_rs. Qed.

Lemma foldl_include_append files_tests acc :
  foldl include_append acc files_tests = acc ++ (files_tests ≫= entries_for).
Proof.
  revert acc. induction files_tests as [| t ts IH]; intros acc; simpl.
  - by rewrite app_nil_r.
  - rewrite IH. unfold include_append, entries_for.
    destruct (bool_decide (t ∈ MACOS_TESTS)); simpl;
      by rewrite <- ?app_assoc.
Qed.

Lemma include_of_flat files :
  include_of files = test_names files ≫= entries_for.
Proof. unfold include_of. by rewrite foldl_include_append. Qed.

Lemma matrix_entry_os test os : matrix_entry test os !! "os"%string = Some os.
Proof.
  unfold matrix_entry. rewrite lookup_insert_ne by done.
  apply lookup_singleton_eq.
Qed.

Lemma matrix_entry_test test os :
  matrix_entry test os !! "test"%string = Some test.
Proof. unfold matrix_entry. apply lookup_insert_eq. Qed.

Lemma tests_on_app os (l1 l2 : list (gmap string string)) :
  tests_on os (l1 ++ l2) = tests_on os l1 ++ tests_on os l2.
Proof. apply omap_app. Qed.

Lemma tests_on_entries_ubuntu test :
  tests_on "ubuntu-24.04" (entries_for test) = [test].
Proof.
  unfold tests_on, entries_for.
  destruct (bool_decide (test ∈ MACOS_TESTS)); simpl;
    rewrite !matrix_entry_os, ?matrix_entry_test; simpl;
    by rewrite ?matrix_entry_test.
Qed.

Lemma tests_on_entries_macos test :
  tests_on "macos-15" (entries_for test)
  = if bool_decide (test ∈ MACOS_TESTS) then [test] else [].
Proof.
  unfold tests_on, entries_for.
  destruct (bool_decide (test ∈ MACOS_TESTS)); simpl;
    rewrite !matrix_entry_os, ?matrix_entry_test; simpl;
    by rewrite ?matrix_entry_test.
Qed.
End TestMatrix.

(** [test_names] keeps exactly the files whose name ends in [.rs], each
    without that ending: [name] is a test if and only if [name.rs] is in
    the directory. A file called [.rs] gives the empty name. *)
Theorem test_names_round_trip (all_files : list string) (name : string) :
  name ∈ test_names all_files ↔ (name +:+ ".rs")%string ∈ all_files.
Proof.
  unfold test_names. rewrite list_elem_of_fmap. split.
  - intros (f & -> & [Hend Hin]%list_elem_of_filter).
    apply endswith_spec in Hend as [p ->]. by rewrite all_but_last3_rs.
  - intros Hin. exists (name +:+ ".rs")%string.
    split; [by rewrite all_but_last3_rs |].
    apply list_elem_of_filter. split; [| done].
    apply endswith_spec. by exists name.
Qed.

(** Distinct directory entries give distinct test names. *)
Theorem test_names_distinct (all_files : list string) :
  NoDup all_files → NoDup (test_names all_files).
Proof.
  intros Hnd. unfold test_names. apply NoDup_fmap_2_strong.
  - intros x y [[p ->]%endswith_spec _]%list_elem_of_filter
                [[q ->]%endswith_spec _]%list_elem_of_filter.
    rewrite !all_but_last3_rs. by intros ->.
  - by apply NoDup_filter.
Qed.

Lemma test_names_distinct_witness :
  NoDup (test_names ["a.rs"; "notes.txt"; "network_tests.rs"; "a.txt"]%string).
Proof.
  apply (test_names_distinct
           ["a.rs"; "notes.txt"; "network_tests.rs"; "a.txt"]%string).
  apply (bool_decide_unpack _). vm_compute. exact I.
Defined.

(** Ubuntu runs everything: the Ubuntu entries of [include] name every
    test once, in the order of [test_names]. *)
Theorem ubuntu_runs_every_test (all_files : list string) :
  tests_on "ubuntu-24.04" (include_of all_files) = test_names all_files.
Proof.
  rewrite include_of_flat.
  induction (test_names all_files) as [| t ts IH]; [done |].
  rewrite bind_cons, tests_on_app, tests_on_entries_ubuntu, IH. done.
Qed.

(** macOS runs the selected tests only: the macOS entries of [include]
    are those of the tests listed in [MACOS_TESTS], in order, and each of
    them is [network_tests]. *)
Theorem macos_runs_selected_tests (all_files : list string) :
  tests_on "macos-15" (include_of all_files)
  = filter (λ test, test ∈ MACOS_TESTS) (test_names all_files)
  ∧ Forall (λ test, test = "network_tests"%string)
      (tests_on "macos-15" (include_of all_files)).
Proof.
  assert (H : tests_on "macos-15" (include_of all_files)
              = filter (λ test, test ∈ MACOS_TESTS) (test_names all_files)).
  { rewrite include_of_flat.
    induction (test_names all_files) as [| t ts IH]; [done |].
    rewrite bind_cons, tests_on_app, tests_on_entries_macos, IH.
    rewrite filter_cons. destruct (decide (t ∈ MACOS_TESTS)) as [Hin | Hin].
    - by rewrite bool_decide_eq_true_2.
    - by rewrite bool_decide_eq_false_2. }
  split; [done |]. rewrite H. apply Forall_forall.
  intros t [Hin _]%list_elem_of_filter.
  by apply list_elem_of_singleton in Hin.
Qed.

(** Every entry of [include] is a dict with the two keys [test] and [os],
    for a test of [test_names]; its [os] is [ubuntu-24.04], or
    [macos-15] and then the test is [network_tests]. *)
Theorem include_entries_shape (all_files : list string)
    (entry : gmap string string) :
  entry ∈ include_of all_files →
  ∃ test,
    test ∈ test_names all_files
    ∧ dom entry = {[ "test"%string; "os"%string ]}
    ∧ entry !! "test"%string = Some test
    ∧ (entry !! "os"%string = Some "ubuntu-24.04"%string
       ∨ (entry !! "os"%string = Some "macos-15"%string
          ∧ test = "network_tests"%string)).
Proof.
  rewrite include_of_flat. intros (test & He & Hin)%list_elem_of_bind.
  exists test. split; [done |].
  assert (Hdom : ∀ os, dom (matrix_entry test os)
                       = ({[ "test"%string; "os"%string ]} : gset string)).
  { intros os. unfold matrix_entry.
    by rewrite dom_insert_L, dom_singleton_L. }
  unfold entries_for in He. apply elem_of_cons in He as [-> | He].
  - rewrite Hdom, matrix_entry_test, matrix_entry_os. auto.
  - destruct (bool_decide (test ∈ MACOS_TESTS)) eqn:Hm;
      [| by apply elem_of_nil in He].
    apply list_elem_of_singleton in He as ->.
    apply bool_decide_eq_true in Hm.
    apply list_elem_of_singleton in Hm as ->.
    rewrite Hdom, matrix_entry_test, matrix_entry_os. auto.
Qed.

Lemma include_entries_shape_witness :
  ∃ test,
    test ∈ test_names ["network_tests.rs"; "README.md"]%string
    ∧ dom (matrix_entry "network_tests" "macos-15")
      = {[ "test"%string; "os"%string ]}
    ∧ matrix_entry "network_tests" "macos-15" !! "test"%string = Some test
    ∧ (matrix_entry "network_tests" "macos-15" !! "os"%string
       = Some "ubuntu-24.04"%string
       ∨ (matrix_entry "network_tests" "macos-15" !! "os"%string
          = Some "macos-15"%string
          ∧ test = "network_tests"%string)).
Proof.
  apply (include_entries_shape ["network_tests.rs"; "README.md"]%string
           (matrix_entry "network_tests" "macos-15")).
  apply (bool_decide_unpack _). vm_compute. exact I.
Defined.

(** * More on the gate *)

Lemma response_counts_step (w : World) (f : Flow) (w1 : World) :
  step w (Respond f) = Some w1 →
  requests_completed (addon w1) = requests_completed (addon w) + 1
  ∧ in_flight (addon w1) = false.
Proof.
  unfold step, response.
  destruct (truthy _ && _).
  - destruct (waiters (addon w)); simpl; [done |]. by intros [= <-].
  - by intros [= <-].
Qed.

Section Shut.
Implicit Types (w : World) (l : Label) (tr : list Label).

Lemma shut_step w l w' : shut w → step w l = Some w' → shut w'.
Proof.
  intros [Hlim Hw Hfl Hal Hst Hts] Hstep.
  destruct l as [f | f | f]; unfold step in Hstep.
  - destruct (tasks w !! f) eqn:Hf; [done |].
    rewrite request_limit_reached in Hstep by done. injection Hstep as <-.
    destruct (history_snoc_verdict (history w) Kill f) as [E1 E2].
    simpl in E1.
    split; simpl; rewrite ?E1, ?allowed_flows_app, ?Hal; try done.
    intros f0 t. destruct (decide (f = f0)) as [<- | Hne].
    + rewrite lookup_insert_eq. congruence.
    + rewrite lookup_insert_ne by done. apply Hts.
  - destruct (tasks w !! f) as [[e | |] |] eqn:Hf; try done.
    by specialize (Hts _ _ Hf).
  - rewrite response_quiet in Hstep by (by left). injection Hstep as <-.
    destruct (history_snoc_done (history w) f) as [E1 E2].
    split; simpl; rewrite ?E1, ?allowed_flows_app, ?Hal; try done.
    lia.
Qed.

Lemma shut_run w tr w' : shut w → run w tr = Some w' → shut w'.
Proof.
  revert w. induction tr as [| l tr IH]; intros w Hs Hrun; simpl in Hrun.
  - by injection Hrun as <-.
  - destruct (step w l) as [w1 |] eqn:Hstep; [| done].
    eapply IH; [| exact Hrun]. by eapply shut_step.
Qed.
End Shut.

(** A gate built with a limit of zero or less admits nothing: in every
    run no flow is allowed, none is queued, [in_flight] is never set and
    every flow that arrived has been killed. *)
Theorem nonpositive_limit_kills_all (n : Z) (tr : list Label) (w : World) :
  n ≤ 0 → run (boot n) tr = Some w →
  allowed_flows (history w) = []
  ∧ stalled_events (history w) = []
  ∧ waiters (addon w) = []
  ∧ in_flight (addon w) = false
  ∧ ∀ f t, tasks w !! f = Some t → t = Killed.
Proof.
  intros Hn Hrun.
  assert (Hs : shut (boot n)).
  { split; simpl; done. }
  by destruct (shut_run _ _ _ Hs Hrun).
Qed.

Lemma nonpositive_limit_witness :
  allowed_flows [ObsKill 1; ObsDone 1; ObsKill 2] = []
  ∧ stalled_events [ObsKill 1; ObsDone 1; ObsKill 2] = []
  ∧ waiters (mkLimitTransfer 0 1 false []) = []
  ∧ in_flight (mkLimitTransfer 0 1 false []) = false
  ∧ ∀ f t,
      ({[ 1%nat := Killed; 2%nat := Killed ]} : gmap nat Task) !! f = Some t →
      t = Killed.
Proof.
  refine (nonpositive_limit_kills_all 0 [Arrive 1; Respond 1; Arrive 2]
            (mkWorld (mkLimitTransfer 0 1 false []) ∅
               {[ 1%nat := Killed; 2%nat := Killed ]}
               [ObsKill 1; ObsDone 1; ObsKill 2]) _ _).
  - lia.
  - vm_compute. reflexivity.
Defined.

(** [requests_completed] counts the calls of the response hook and
    nothing else: over any callbacks it grows by the number of responses
    among them, whatever the flows, and [requests_allowed] stays as
    constructed. *)
Theorem completed_counts_responses (w : World) (tr : list Label) (w' : World) :
  run w tr = Some w' →
  requests_completed (addon w')
  = requests_completed (addon w) + Z.of_nat (responses tr)
  ∧ requests_allowed (addon w') = requests_allowed (addon w).
Proof.
  intros Hrun. split; [| by eapply run_limit].
  revert w Hrun. induction tr as [| l tr IH]; intros w Hrun; simpl in Hrun.
  - injection Hrun as <-. unfold responses. simpl. lia.
  - destruct (step w l) as [w1 |] eqn:Hstep; [| done].
    rewrite (IH _ Hrun). unfold responses. rewrite filter_cons.
    destruct l as [f | f | f]; simpl.
    + unfold step in Hstep. destruct (tasks w !! f); [done |].
      destruct (request_paths (addon w) (fresh (dom (events w))));
        injection Hstep as <-; simpl; lia.
    + unfold step in Hstep.
      destruct (tasks w !! f) as [[e | |] |]; try done.
      destruct (events w !! e) as [[|] |]; try done.
      unfold request_resumed in Hstep.
      destruct (_ >=? _); injection Hstep as <-; simpl; lia.
    + destruct (response_counts_step w f w1 Hstep) as [-> _]. lia.
Qed.

Lemma completed_counts_responses_witness :
  requests_completed (addon raced)
  = requests_completed (addon (boot 2)) + Z.of_nat (responses race)
  ∧ requests_allowed (addon raced) = requests_allowed (addon (boot 2)).
Proof.
  apply (completed_counts_responses (boot 2) race raced).
  vm_compute. reflexivity.
Defined.

(** In every run from a new gate, a response that finds a coroutine
    queued always wakes the head of the queue: the test on the limit at
    line 58 cannot fail while [waiters] is not empty. *)
Theorem completion_wakes_next (n : Z) (tr : list Label) (w : World)
    (f : Flow) (e : Event) (rest : list Event) :
  run (boot n) tr = Some w →
  waiters (addon w) = e :: rest →
  requests_completed (addon w) + 1 < requests_allowed (addon w)
  ∧ step w (Respond f)
    = Some (mkWorld
              (mkLimitTransfer (requests_allowed (addon w))
                 (requests_completed (addon w) + 1) false rest)
              (<[e := true]> (events w)) (tasks w)
              (history w ++ [ObsDone f; ObsSet e])).
Proof.
  intros Hrun Hw.
  destruct (sound_run _ _ _ (sound_boot n) Hrun) as [_ [Hq | Hq] _ _ _ _];
    [congruence |].
  rewrite Hw in Hq. simpl in Hq.
  assert (Hlt : requests_completed (addon w) + 1 < requests_allowed (addon w))
    by lia.
  split; [done |]. unfold step. by rewrite (response_wakes _ e rest).
Qed.

Lemma completion_wakes_next_witness :
  requests_completed (addon two_arrived) + 1
  < requests_allowed (addon two_arrived)
  ∧ step two_arrived (Respond 1)
    = Some (mkWorld
              (mkLimitTransfer (requests_allowed (addon two_arrived))
                 (requests_completed (addon two_arrived) + 1) false [])
              (<[0%nat := true]> (events two_arrived)) (tasks two_arrived)
              (history two_arrived ++ [ObsDone 1; ObsSet 0])).
Proof.
  apply (completion_wakes_next 2 [Arrive 1; Arrive 2] two_arrived 1%nat
           0%nat []).
  - vm_compute. reflexivity.
  - reflexivity.
Defined.

Section Turns.
Implicit Types (w : World) (f : Flow) (fs : list Flow).

Lemma killed_flows_app (h1 h2 : list Obs) :
  killed_flows (h1 ++ h2) = killed_flows h1 ++ killed_flows h2.
Proof. apply omap_app. Qed.

Lemma stalled_events_app (h1 h2 : list Obs) :
  stalled_events (h1 ++ h2) = stalled_events h1 ++ stalled_events h2.
Proof. apply omap_app. Qed.

Lemma one_by_one_from w fs :
  in_flight (addon w) = false →
  waiters (addon w) = [] →
  NoDup fs →
  (∀ f, f ∈ fs → tasks w !! f = None) →
  ∃ w',
    one_by_one w fs = Some w'
    ∧ allowed_flows (history w')
      = allowed_flows (history w)
        ++ take (Z.to_nat (requests_allowed (addon w)
                           - requests_completed (addon w))) fs
    ∧ killed_flows (history w')
      = killed_flows (history w)
        ++ drop (Z.to_nat (requests_allowed (addon w)
                           - requests_completed (addon w))) fs
    ∧ requests_completed (addon w')
      = requests_completed (addon w)
        + Z.of_nat (length (take (Z.to_nat (requests_allowed (addon w)
                                            - requests_completed (addon w)))
                              fs))
    ∧ stalled_events (history w') = stalled_events (history w)
    ∧ in_flight (addon w') = false.
Proof.
  revert w. induction fs as [| f fs IH]; intros w Hfl Hw Hnd Hnew.
  - exists w. rewrite take_nil, drop_nil, !app_nil_r. simpl.
    repeat split; try done. lia.
  - apply NoDup_cons in Hnd as [Hf Hnd].
    assert (Hfnew : tasks w !! f = None) by apply Hnew, list_elem_of_here.
    destruct (Z.lt_ge_cases (requests_completed (addon w))
                (requests_allowed (addon w))) as [Hlt | Hge].
    + (* allowed, then completed *)
      set (w1 := mkWorld
                   (mkLimitTransfer (requests_allowed (addon w))
                      (requests_completed (addon w)) true (waiters (addon w)))
                   (events w) (<[f := Allowed]> (tasks w))
                   (history w ++ [ObsAllow f])).
      set (w2 := mkWorld
                   (mkLimitTransfer (requests_allowed (addon w))
                      (requests_completed (addon w) + 1) false
                      (waiters (addon w)))
                   (events w) (<[f := Allowed]> (tasks w))
                   ((history w ++ [ObsAllow f]) ++ [ObsDone f])).
      assert (H1 : step w (Arrive f) = Some w1).
      { unfold step. rewrite Hfnew. by rewrite request_idle. }
      assert (H2 : step w1 (Respond f) = Some w2).
      { unfold step. rewrite response_quiet; [done | by left]. }
      destruct (IH w2) as (w' & Hrun & Hal & Hki & Hco & Hst & Hfl');
        try done.
      { intros f0 Hf0. simpl. rewrite lookup_insert_ne by congruence.
        by apply Hnew, list_elem_of_further. }
      exists w'. cbn [one_by_one]. rewrite H1. simpl tasks.
      rewrite lookup_insert_eq, H2.
      split; [done |]. simpl in Hal, Hki, Hco, Hst.
      rewrite !allowed_flows_app in Hal. rewrite !killed_flows_app in Hki.
      rewrite !stalled_events_app in Hst. simpl in Hal, Hki, Hst.
      rewrite !app_nil_r in *.
      replace (Z.to_nat (requests_allowed (addon w)
                         - requests_completed (addon w)))
        with (S (Z.to_nat (requests_allowed (addon w)
                           - (requests_completed (addon w) + 1)))) by lia.
      simpl. rewrite Hal, Hki, Hco, Hst, <- app_assoc.
      repeat split; try done. lia.
    + (* killed at line 25 *)
      set (w1 := mkWorld (addon w) (events w) (<[f := Killed]> (tasks w))
                   (history w ++ [ObsKill f])).
      assert (H1 : step w (Arrive f) = Some w1).
      { unfold step. rewrite Hfnew. by rewrite request_limit_reached. }
      destruct (IH w1) as (w' & Hrun & Hal & Hki & Hco & Hst & Hfl');
        try done.
      { intros f0 Hf0. simpl. rewrite lookup_insert_ne by congruence.
        by apply Hnew, list_elem_of_further. }
      exists w'. cbn [one_by_one]. rewrite H1. simpl tasks.
      rewrite lookup_insert_eq.
      split; [done |]. simpl in Hal, Hki, Hco, Hst.
      rewrite !allowed_flows_app in Hal. rewrite !killed_flows_app in Hki.
      rewrite !stalled_events_app in Hst. simpl in Hal, Hki, Hst.
      rewrite !app_nil_r in *.
      replace (Z.to_nat (requests_allowed (addon w)
                         - requests_completed (addon w)))
        with 0%nat in * by lia.
      simpl in *. rewrite Hal, Hki, Hco, Hst, <- app_assoc.
      repeat split; try done.
Qed.
End Turns.

(** Flows served one after the other, each completing before the next
    arrives: the first [limit] of them are allowed, all the later ones are
    killed, none is ever queued, and the run never gets stuck. *)
Theorem one_by_one_first_n (n : Z) (fs : list Flow) :
  NoDup fs →
  ∃ w,
    one_by_one (boot n) fs = Some w
    ∧ allowed_flows (history w) = take (Z.to_nat n) fs
    ∧ killed_flows (history w) = drop (Z.to_nat n) fs
    ∧ stalled_events (history w) = []
    ∧ requests_completed (addon w)
      = Z.of_nat (length (take (Z.to_nat n) fs)).
Proof.
  intros Hnd.
  destruct (one_by_one_from (boot n) fs) as (w & Hrun & Hal & Hki & Hco & Hst & _);
    try done.
  exists w. simpl in *. rewrite Z.sub_0_r in *.
  repeat split; try done.
Qed.

Lemma one_by_one_witness :
  ∃ w,
    one_by_one (boot 2) [1; 2; 3]%nat = Some w
    ∧ allowed_flows (history w) = take (Z.to_nat 2) [1; 2; 3]%nat
    ∧ killed_flows (history w) = drop (Z.to_nat 2) [1; 2; 3]%nat
    ∧ stalled_events (history w) = []
    ∧ requests_completed (addon w)
      = Z.of_nat (length (take (Z.to_nat 2) [1; 2; 3]%nat)).
Proof.
  apply (one_by_one_first_n 2 [1; 2; 3]%nat).
  apply (bool_decide_unpack _). vm_compute. exact I.
Defined.

Section Tracked.
Implicit Types (w : World) (l : Label) (tr : list Label) (f : Flow).

Lemma tracked_verdict w f v self ev :
  tracked w →
  tasks w !! f ≠ Some Allowed →
  in_flight self = (match v with Allow => true | Kill => in_flight (addon w) end) →
  tracked (mkWorld self ev (<[f := verdict_task v]> (tasks w))
             (history w ++ [verdict_obs v f])).
Proof.
  intros [Ht Hd Hb] Hf Hfl.
  assert (Hnew : f ∉ allowed_flows (history w)) by (by rewrite <- Ht).
  destruct v; simpl in *.
  - split; simpl; rewrite ?allowed_flows_app, ?done_flows_app; simpl;
      rewrite ?app_nil_r; try done.
    + intros f0. destruct (decide (f = f0)) as [<- | Hne].
      * rewrite lookup_insert_eq. split; [congruence | done].
      * rewrite lookup_insert_ne by done. apply Ht.
    + by rewrite Hfl.
  - split; simpl; rewrite ?allowed_flows_app, ?done_flows_app; simpl;
      rewrite ?app_nil_r.
    + intros f0. rewrite elem_of_app, list_elem_of_singleton.
      destruct (decide (f = f0)) as [<- | Hne].
      * rewrite lookup_insert_eq. split; [by right | done].
      * rewrite lookup_insert_ne by done. rewrite Ht.
        split; [by left | by intros [? | ?]].
    + intros f0 Hin. apply elem_of_app. left. by apply Hd.
    + intros _. exists f. rewrite last_snoc. split; [done |].
      intros Hin. by apply Hnew, Hd.
Qed.

Lemma tracked_step w l w' :
  tracked w → polite_step w l = true → step w l = Some w' → tracked w'.
Proof.
  intros Htr Hpol Hstep. destruct l as [f | f | f]; unfold step in Hstep.
  - destruct (tasks w !! f) eqn:Hf; [done |].
    destruct (request_paths (addon w) (fresh (dom (events w))))
      as [Hge | Hlt Hfl Hge | Hlt Hfl Hp | Hlt Hfl]; injection Hstep as <-.
    + apply (tracked_verdict w f Kill); [done | congruence | done].
    + apply (tracked_verdict w f Kill); [done | congruence | done].
    + destruct Htr as [Ht Hd Hb].
      split; simpl; rewrite ?allowed_flows_app, ?done_flows_app; simpl;
        rewrite ?app_nil_r; try done.
      * intros f0. destruct (decide (f = f0)) as [<- | Hne].
        -- rewrite lookup_insert_eq. rewrite <- Ht, Hf. split; congruence.
        -- rewrite lookup_insert_ne by done. apply Ht.
      * intros _. by apply Hb.
    + apply (tracked_verdict w f Allow); [done | congruence | done].
  - destruct (tasks w !! f) as [[e | |] |] eqn:Hf; try done.
    destruct (events w !! e) as [[|] |]; try done.
    destruct (Z.lt_ge_cases (requests_completed (addon w))
                (requests_allowed (addon w))) as [Hlt | Hge].
    + rewrite resumed_under_limit in Hstep by done. injection Hstep as <-.
      apply (tracked_verdict w f Allow); [done | congruence | done].
    + rewrite resumed_limit_reached in Hstep by done. injection Hstep as <-.
      apply (tracked_verdict w f Kill); [done | congruence | done].
  - simpl in Hpol.
    apply andb_true_iff in Hpol as [Hal%bool_decide_eq_true _].
    destruct Htr as [Ht Hd Hb].
    assert (Hshape : ∃ self os,
              w' = mkWorld self os (tasks w) (history w ++ [ObsDone f])
              ∧ in_flight self = false
              ∨ ∃ e, w' = mkWorld self os (tasks w)
                            (history w ++ [ObsDone f; ObsSet e])
                     ∧ in_flight self = false).
    { unfold response in Hstep. destruct (truthy _ && _).
      - destruct (waiters (addon w)) as [| e rest]; simpl in Hstep; [done |].
        injection Hstep as <-. eexists _, _. right. by exists e.
      - injection Hstep as <-. eexists _, _. by left. }
    destruct Hshape as (self & os & [[-> Hfl] | [e [-> Hfl]]]);
      split; simpl; rewrite ?allowed_flows_app, ?done_flows_app; simpl;
      rewrite ?app_nil_r; try done; try congruence.
    + intros f0 [Hin | ->%list_elem_of_singleton]%elem_of_app;
        [by apply Hd | by apply Ht].
    + intros f0 [Hin | ->%list_elem_of_singleton]%elem_of_app;
        [by apply Hd | by apply Ht].
Qed.

Lemma tracked_run w tr w' :
  tracked w → polite w tr = true → run w tr = Some w' → tracked w'.
Proof.
  revert w. induction tr as [| l tr IH]; intros w Htr Hpol Hrun;
    simpl in Hpol, Hrun.
  - by injection Hrun as <-.
  - apply andb_true_iff in Hpol as [Hl Hpol].
    destruct (step w l) as [w1 |] eqn:Hstep; [| done].
    eapply IH; [| exact Hpol | exact Hrun]. by eapply tracked_step.
Qed.

Lemma tracked_boot (n : Z) : tracked (boot n).
Proof.
  split; simpl; try done.
  intros f. rewrite lookup_empty. split; [done |]. by intros ?%elem_of_nil.
Qed.
End Tracked.

(** With a polite collaborator and whatever the interleaving, the flag
    never claims a request that is not there: when [in_flight] is set, the
    flow allowed last has not had its response yet. *)
Theorem in_flight_has_outstanding (n : Z) (tr : list Label) (w : World) :
  polite (boot n) tr = true →
  run (boot n) tr = Some w →
  in_flight (addon w) = true →
  ∃ f, last (allowed_flows (history w)) = Some f
       ∧ f ∈ between w
       ∧ tasks w !! f = Some Allowed.
Proof.
  intros Hpol Hrun Hfl.
  destruct (tracked_run _ _ _ (tracked_boot n) Hpol Hrun) as [Ht Hd Hb].
  destruct (Hb Hfl) as (f & Hlast & Hnd). exists f.
  assert (Hin : f ∈ allowed_flows (history w)).
  { apply last_Some in Hlast as [l' ->]. apply elem_of_app. right.
    apply list_elem_of_here. }
  split; [done |]. split; [| by apply Ht].
  unfold between. by apply list_elem_of_filter.
Qed.

Lemma in_flight_has_outstanding_witness :
  ∃ f, last (allowed_flows (history raced)) = Some f
       ∧ f ∈ between raced
       ∧ tasks raced !! f = Some Allowed.
Proof.
  apply (in_flight_has_outstanding 2 race raced).
  - vm_compute. reflexivity.
  - vm_compute. reflexivity.
  - reflexivity.
Defined.

Section Recheck.
Implicit Types (w : World) (h : list Obs) (f : Flow) (e : Event).

(** With no event appended twice, the coroutine that parked on [e] is the
    owner of [e]. *)
Lemma owner_of_stall h f e :
  NoDup (stalled_events h) → ObsStall f e ∈ h → owner h e = Some f.
Proof.
  induction h as [| o h IH]; intros Hnd Hin; [by apply elem_of_nil in Hin |].
  apply elem_of_cons in Hin as [<- | Hin].
  - unfold owner. simpl. by rewrite decide_True.
  - assert (He : e ∈ stalled_events h).
    { unfold stalled_events. apply list_elem_of_omap.
      by exists (ObsStall f e). }
    destruct o as [f0 | f0 e0 | f0 | f0 | e0];
      try (apply IH; [exact Hnd | exact Hin]).
    change (stalled_events (ObsStall f0 e0 :: h))
      with (e0 :: stalled_events h) in Hnd.
    apply NoDup_cons in Hnd as [Hne Hnd].
    unfold owner. simpl. rewrite decide_False by (by intros ->).
    by apply IH.
Qed.

Lemma stall_in_snoc h (os : list Obs) f e :
  (∀ f' e', ObsStall f' e' ∉ os) →
  ObsStall f e ∈ h ++ os → ObsStall f e ∈ h.
Proof. intros Hos [? | Hin]%elem_of_app; [done |]. by apply Hos in Hin. Qed.

Lemma queued_request n w f w' :
  settled n w → queued_or_allowed w →
  step w (Arrive f) = Some w' → queued_or_allowed w'.
Proof.
  intros Hs Hq Hstep. unfold step in Hstep.
  destruct (tasks w !! f) eqn:Hf; [done |].
  assert (Hkeep : ∀ f0 e0 x, ObsStall f0 e0 ∈ history w →
            (<[f := x]> (tasks w) !! f0 = Some (Parked e0)
             ∧ e0 ∈ waiters (addon w))
            ∨ <[f := x]> (tasks w) !! f0 = Some Allowed).
  { intros f0 e0 x Hin.
    assert (f ≠ f0) by (intros <-; destruct (Hq _ _ Hin) as [[? _] | ?];
                        congruence).
    rewrite !lookup_insert_ne by done. by apply Hq. }
  destruct (request_paths (addon w) (fresh (dom (events w))))
    as [Hge | Hlt Hfl Hge | Hlt Hfl Hp | Hlt Hfl]; injection Hstep as <-;
    intros f0 e0 Hin; simpl in *.
  - apply Hkeep. revert Hin. apply stall_in_snoc.
    intros ? ? [=]%list_elem_of_singleton.
  - apply Hkeep. revert Hin. apply stall_in_snoc.
    intros ? ? [=]%list_elem_of_singleton.
  - apply elem_of_app in Hin as [Hin | [= -> ->]%list_elem_of_singleton].
    + destruct (Hkeep f0 e0 (Parked (fresh (dom (events w)))) Hin)
        as [[? ?] | ?]; [left | by right].
      split; [done |]. apply elem_of_app. by left.
    + left. rewrite lookup_insert_eq. split; [done |].
      apply elem_of_app. right. apply list_elem_of_here.
  - apply Hkeep. revert Hin. apply stall_in_snoc.
    intros ? ? [=]%list_elem_of_singleton.
Qed.

Lemma queued_response n w f w' :
  settled n w → queued_or_allowed w →
  polite_step w (Respond f) = true →
  run w (handoff w (Response f)) = Some w' → queued_or_allowed w'.
Proof.
  intros Hs Hq Hpol Hrun.
  destruct (polite_response_in_flight n w f Hs Hpol) as (Hfl & Hb & Hlt).
  pose proof (settled_sound n w Hs) as Hsound.
  destruct (waiters (addon w)) as [| e rest] eqn:Hw.
  - cbn [handoff run] in Hrun. rewrite response_quiet in Hrun by (by left).
    cbn [run] in Hrun. unfold step in Hrun.
    rewrite response_quiet in Hrun by (by left).
    injection Hrun as <-. intros f0 e0 Hin. simpl in *.
    rewrite Hw. rewrite <- Hw at 1. apply Hq. revert Hin.
    apply stall_in_snoc. intros ? ? [=]%list_elem_of_singleton.
  - assert (Hlim : requests_completed (addon w) + 1
                   < requests_allowed (addon w)).
    { destruct (sound_queue w Hsound) as [Hx | Hx]; [congruence |].
      rewrite Hw in Hx. simpl in Hx. lia. }
    destruct (settled_owner n w Hs e) as (f' & Ho & Hf');
      [rewrite Hw; apply list_elem_of_here |].
    assert (Hnd : NoDup (e :: rest)).
    { rewrite <- Hw. by apply sound_waiters_nodup. }
    apply NoDup_cons in Hnd as [Hne _].
    unfold handoff in Hrun. rewrite (response_wakes _ e rest) in Hrun by done.
    rewrite Ho in Hrun. cbn [run] in Hrun.
    assert (H1 : step w (Respond f)
                 = Some (mkWorld
                           (mkLimitTransfer (requests_allowed (addon w))
                              (requests_completed (addon w) + 1) false rest)
                           (<[e := true]> (events w)) (tasks w)
                           (history w ++ [ObsDone f; ObsSet e]))).
    { unfold step. by rewrite (response_wakes _ e rest). }
    rewrite H1 in Hrun. unfold step in Hrun. cbn [tasks events addon] in Hrun.
    rewrite Hf', lookup_insert_eq in Hrun.
    rewrite resumed_under_limit in Hrun by (simpl; lia).
    cbn [requests_allowed requests_completed waiters history verdict_task
         verdict_obs] in Hrun.
    injection Hrun as <-. intros f0 e0 Hin. simpl in *.
    assert (Hin0 : ObsStall f0 e0 ∈ history w).
    { apply elem_of_app in Hin as [Hin | [=]%list_elem_of_singleton].
      revert Hin. apply stall_in_snoc.
      intros ? ? [[=] | [=]%list_elem_of_singleton]%elem_of_cons. }
    destruct (decide (f' = f0)) as [<- | Hdiff].
    { right. apply lookup_insert_eq. }
    rewrite !lookup_insert_ne by done.
    destruct (Hq _ _ Hin0) as [[Hp Hin1] | Ha]; [| by right].
    left. split; [done |]. rewrite Hw in Hin1.
    apply elem_of_cons in Hin1 as [-> | Hin1]; [| done].
    exfalso. apply Hdiff.
    pose proof (owner_of_stall _ _ _ (sound_nodup w Hsound) Hin0) as Ho'.
    congruence.
Qed.

Lemma queued_run_prompt n w cs w' :
  settled n w → queued_or_allowed w →
  run_prompt w cs = Some w' → queued_or_allowed w'.
Proof.
  revert w. induction cs as [| c cs IH]; intros w Hs Hq Hrun; simpl in Hrun.
  - by injection Hrun as <-.
  - destruct (polite_call w c) eqn:Hpol; [| done].
    destruct (run w (handoff w c)) as [w1 |] eqn:Hc; [| done].
    assert (Hs1 : settled n w1).
    { apply (settled_run_prompt n w [c]); [done |]. simpl.
      by rewrite Hpol, Hc. }
    apply (IH w1); [done | | done].
    destruct c as [f | f].
    + cbn [handoff run] in Hc.
      destruct (step w (Arrive f)) as [w2 |] eqn:Hstep; [| done].
      injection Hc as <-. by apply (queued_request n w f).
    + by apply (queued_response n w f).
Qed.
End Recheck.

(** When the woken coroutine runs before any other callback, the check
    after waking (lines 44-47) never kills: every flow that queued is
    either still parked on its event, which is still in [waiters], or has
    been allowed. *)
Theorem prompt_waiter_never_killed (n : Z) (cs : list Call) (w : World)
    (f : Flow) (e : Event) :
  run_prompt (boot n) cs = Some w →
  ObsStall f e ∈ history w →
  (tasks w !! f = Some (Parked e) ∧ e ∈ waiters (addon w))
  ∨ tasks w !! f = Some Allowed.
Proof.
  intros Hrun. apply (queued_run_prompt n (boot n) cs); [| | done].
  - apply settled_boot.
  - intros f0 e0 Hin. by apply elem_of_nil in Hin.
Qed.

Lemma prompt_waiter_witness :
  (({[ 1%nat := Allowed; 2%nat := Allowed; 3%nat := Killed ]}
      : gmap nat Task) !! 2%nat = Some (Parked 0)
   ∧ 0%nat ∈ waiters (mkLimitTransfer 2 1 true []))
  ∨ ({[ 1%nat := Allowed; 2%nat := Allowed; 3%nat := Killed ]}
       : gmap nat Task) !! 2%nat = Some Allowed.
Proof.
  refine (prompt_waiter_never_killed 2
            [Request 1; Request 2; Request 3; Response 1]
            (mkWorld (mkLimitTransfer 2 1 true [])
               {[ 0%nat := true ]}
               {[ 1%nat := Allowed; 2%nat := Allowed; 3%nat := Killed ]}
               [ObsAllow 1; ObsStall 2 0; ObsKill 3; ObsDone 1; ObsSet 0;
                ObsAllow 2])
            2%nat 0%nat _ _).
  - vm_compute. reflexivity.
  - apply (bool_decide_unpack _). vm_compute. exact I.
Defined.

(** An arrival that finds the gate under its limit and nothing in flight
    is allowed on the spot: [in_flight] is set, and the count, the limit,
    the queue and the event heap stay as they were. *)
Theorem idle_arrival_allowed (w : World) (f : Flow) :
  tasks w !! f = None →
  requests_completed (addon w) < requests_allowed (addon w) →
  in_flight (addon w) = false →
  step w (Arrive f)
  = Some (mkWorld
            (mkLimitTransfer (requests_allowed (addon w))
               (requests_completed (addon w)) true (waiters (addon w)))
            (events w) (<[f := Allowed]> (tasks w))
            (history w ++ [ObsAllow f])).
Proof.
  intros Hnew Hlt Hfl. unfold step. rewrite Hnew.
  by rewrite request_idle.
Qed.

Lemma idle_arrival_witness :
  step (boot 2) (Arrive 1)
  = Some (mkWorld
            (mkLimitTransfer (requests_allowed (addon (boot 2)))
               (requests_completed (addon (boot 2))) true
               (waiters (addon (boot 2))))
            (events (boot 2)) (<[1%nat := Allowed]> (tasks (boot 2)))
            (history (boot 2) ++ [ObsAllow 1])).
Proof.
  apply (idle_arrival_allowed (boot 2) 1%nat).
  - reflexivity.
  - simpl. lia.
  - reflexivity.
Defined.
